(** * HyperLogLog cardinality estimator: a shallow embedding of hyperloglog.go

    The estimator of [hyperloglog.go] is embedded as pure functions over a
    record of its five fields.  Go's fixed-width unsigned integers are [Z]
    with the wrap-around written out, [float64] is the kernel's IEEE-754
    binary64 type, a run-time panic (slice index out of range) is [None],
    and the [encoding/gob] stream the snapshot methods talk to is modelled
    at the byte level for the two wire types they use. *)

From Stdlib Require Import ZArith List Lia Bool String Floats.
From Stdlib.Strings Require Import Byte.
From stdpp Require Import base list.
Import ListNotations.
Set Warnings "-inexact-float".
Local Open Scope Z_scope.

(** ** Go's unsigned integer types *)

Module Go.

(** Conversion to a [w]-bit unsigned integer keeps the low [w] bits. *)
Definition wrap (w x : Z) : Z := x mod 2 ^ w.

Definition uint8  : Z -> Z := wrap 8.
Definition uint16 : Z -> Z := wrap 16.
Definition uint32 : Z -> Z := wrap 32.
Definition uint64 : Z -> Z := wrap 64.

(** Conversion to [int32] keeps the low 32 bits, read as a signed value. *)
Definition int32 (x : Z) : Z :=
  let u := wrap 32 x in if u <? 2 ^ 31 then u else u - 2 ^ 32.

(** [x << n] on a [w]-bit operand: the bits shifted past the width are
    lost, so a count of [w] or more gives 0.  The count is unsigned. *)
Definition shl (w x n : Z) : Z := wrap w (Z.shiftl x n).

(** An [error] value: one made by [errors.New], or one returned by the
    gob decoder (its text is not modelled). *)
Inductive error : Type :=
| errorString (s : string)
| decodeError.

End Go.
Import Go.

(** ** float64 *)

Module F64.

(** [float64(v)] for an unsigned integer [v] below [2^63] (exact below
    [2^53], which covers every [uint32]), and for the untyped integer
    constants of the source. *)
Definition of_Z (v : Z) : float :=
  if v <? 0 then PrimFloat.opp (PrimFloat.of_uint63 (Uint63.of_Z (- v)))
  else PrimFloat.of_uint63 (Uint63.of_Z v).

(** The integer part of a finite float, rounded toward zero, when the
    float is not below zero; [None] for negative values, infinities and
    NaN. *)
Definition trunc (f : float) : option Z :=
  match Prim2SF f with
  | S754_zero _ => Some 0
  | S754_finite sign mnt e =>
      let t := if 0 <=? e then Z.pos mnt * 2 ^ e else Z.pos mnt / 2 ^ (- e) in
      if sign then (if t =? 0 then Some 0 else None) else Some t
  | _ => None
  end.

(** [uint64(f)].  Go truncates toward zero; when the value does not fit
    the result is implementation-dependent, which [oor] supplies. *)
Definition to_uint64 (oor : float -> Z) (f : float) : Z :=
  match trunc f with
  | Some t => if t <? 2 ^ 64 then t else uint64 (oor f)
  | None => uint64 (oor f)
  end.

(** [2^(-k)], exact for every [k] a register can hold. *)
Definition pow2_neg (k : Z) : float := Z.ldexp PrimFloat.one (- k).

(** The exact value of a finite float as a fraction [n / 2^d]. *)
Definition exact (f : float) : option (Z * Z) :=
  match Prim2SF f with
  | S754_zero _ => Some (0, 0)
  | S754_finite sign mnt e =>
      let n := if sign then Z.neg mnt else Z.pos mnt in
      Some (if 0 <=? e then (n * 2 ^ e, 0) else (n, - e))
  | _ => None
  end.

End F64.

(** ** The estimator *)

Definition two32 : Z := Z.shiftl 1 32.

Record HyperLogLog : Type := mkHyperLogLog {
  reg : list Z;   (* []uint8 *)
  m : Z;          (* uint32 *)
  p : Z;          (* uint8 *)
  c : Z;          (* uint64 *)
  z : Z;          (* uint16 *)
}.

Definition set_reg (h : HyperLogLog) (v : list Z) : HyperLogLog :=
  {| reg := v; m := m h; p := p h; c := c h; z := z h |}.
Definition set_m (h : HyperLogLog) (v : Z) : HyperLogLog :=
  {| reg := reg h; m := v; p := p h; c := c h; z := z h |}.
Definition set_p (h : HyperLogLog) (v : Z) : HyperLogLog :=
  {| reg := reg h; m := m h; p := v; c := c h; z := z h |}.
Definition set_c (h : HyperLogLog) (v : Z) : HyperLogLog :=
  {| reg := reg h; m := m h; p := p h; c := v; z := z h |}.
Definition set_z (h : HyperLogLog) (v : Z) : HyperLogLog :=
  {| reg := reg h; m := m h; p := p h; c := c h; z := v |}.

(** *** Helpers of the package that hyperloglog.go calls *)

(** Modelled from the spec: [eb32] is not in hyperloglog.go.  It extracts
    the bits [hi-1] down to [lo] of a 32-bit value; [Add] calls it with
    [hi = 32] and [lo = 32 - p] for "the top [precision] bits of [x] (bits
    31 down to 32-precision)". *)
Definition eb32 (bits hi lo : Z) : Z :=
  Z.shiftr (Z.land bits (Z.ones hi)) lo.

(** Modelled from the spec: [clz32] is not in hyperloglog.go.  It is "the
    count of leading zero bits in the 32-bit value": the bits are scanned
    from position [n-1] downwards until the first one that is set. *)
Fixpoint clz (n : nat) (w : Z) : Z :=
  match n with
  | O => 0
  | S k => if Z.testbit w (Z.of_nat k) then 0 else 1 + clz k w
  end.

Definition clz32 (w : Z) : Z := clz 32 w.

(** Modelled from the spec: [countZeros] is not in hyperloglog.go.  It is
    the "full scan" that counts the registers equal to 0. *)
Fixpoint countZeros (s : list Z) : Z :=
  match s with
  | [] => 0
  | v :: s' => (if v =? 0 then 1 else 0) + countZeros s'
  end.

(** Modelled from the spec: the bias-correction constant [alpha_m], "fixed
    published constants for m=16,32,64 and the asymptotic formula
    0.7213/(1+1.079/m) for larger m". *)
Definition alpha (n : Z) : float :=
  if n =? 16 then 0.673%float
  else if n =? 32 then 0.697%float
  else if n =? 64 then 0.709%float
  else (0.7213 / (1 + 1.079 / F64.of_Z n))%float.

(** Modelled from the spec: [calculateEstimate] is not in hyperloglog.go.
    It is the raw estimate [alpha_m * m^2 / sum 2^(-registers[i])] with [m]
    the register count. *)
Definition calculateEstimate (s : list Z) : float :=
  let sum := fold_left (fun acc val => (acc + F64.pow2_neg val)%float) s 0%float in
  let n := uint32 (Z.of_nat (length s)) in
  let fm := F64.of_Z n in
  (alpha n * fm * fm / sum)%float.

Section Estimator.

(** [math.Log], which is outside the package. *)
Variable Log : float -> float.

(** What [uint64(f)] yields on this platform when [f] is out of range. *)
Variable oor : float -> Z.

(** Modelled from the spec: [linearCounting] is not in hyperloglog.go.
    It is the linear-counting estimate [m * ln(m / zero_register_count)]. *)
Definition linearCounting (n v : Z) : float :=
  let fm := F64.of_Z n in
  (fm * Log (fm / F64.of_Z v))%float.

(** [two32/30] divides two untyped integer constants, so Go evaluates it
    as the integer quotient before converting it to [float64]. *)
Definition doCount (h : HyperLogLog) : Z :=
  let est := calculateEstimate (reg h) in
  if (est <=? F64.of_Z (m h) * 2.5)%float then
    let v := uint32 (z h) in
    if negb (v =? 0) then F64.to_uint64 oor (linearCounting (m h) v)
    else F64.to_uint64 oor est
  else if (est <? F64.of_Z (two32 / 30))%float then
    F64.to_uint64 oor est
  else
    F64.to_uint64 oor
      (F64.of_Z (- two32) * Log (1 - est / F64.of_Z two32))%float.

(** [New] returns the error, or the new estimator. *)
Definition New (precision : Z) : error + HyperLogLog :=
  if (precision >? 16) || (precision <? 4) then
    inl (errorString "precision must be between 4 and 16")
  else
    let h_p := precision in
    let h_m := shl 32 1 precision in
    let h_z := uint16 h_m in
    let h_c := 0 in
    inr {| reg := replicate (Z.to_nat h_m) 0;
           m := h_m; p := h_p; c := h_c; z := h_z |}.

Definition Clear (h : HyperLogLog) : HyperLogLog :=
  let h := set_reg h (replicate (Z.to_nat (m h)) 0) in
  let h := set_z h (uint16 (m h)) in
  set_c h 0.

(** [Add], on the value [x] of [item.Sum32()].  [None] is the run-time
    panic of an index out of range. *)
Definition Add (h : HyperLogLog) (x : Z) : option HyperLogLog :=
  let i := eb32 x 32 (uint8 (32 - p h)) in
  let w := Z.lor (shl 32 x (p h)) (shl 32 1 (uint8 (p h - 1))) in
  let zeroBits := uint8 (clz32 w + 1) in
  match reg h !! Z.to_nat i with
  | None => None
  | Some r =>
      if zeroBits >? r then
        let h := if r =? 0 then set_z h (uint16 (z h - 1)) else h in
        let h := set_reg h (<[Z.to_nat i := zeroBits]> (reg h)) in
        let est := doCount h in
        Some (set_c h est)
      else Some h
  end.

(** [n] further calls of [Add] with the same item. *)
Fixpoint Add_repeat (n : nat) (h : HyperLogLog) (x : Z) : option HyperLogLog :=
  match n with
  | O => Some h
  | S n' =>
      match Add h x with
      | None => None
      | Some h' => Add_repeat n' h' x
      end
  end.

(** The loop of [Merge]: [i] is the index of the head of [other]. *)
Fixpoint merge_loop (i : nat) (other : list Z) (r : list Z) : option (list Z) :=
  match other with
  | [] => Some r
  | v :: other' =>
      match r !! i with
      | None => None
      | Some ri => merge_loop (S i) other' (if v >? ri then <[i := v]> r else r)
      end
  end.

(** [Merge] returns the receiver after the call together with the error
    ([None] for [nil]); the outer [None] is a panic. *)
Definition Merge (h other : HyperLogLog) : option (HyperLogLog * option error) :=
  if negb (p h =? p other) then
    Some (h, Some (errorString "precisions must be equal"))
  else
    match merge_loop 0 (reg other) (reg h) with
    | None => None
    | Some r =>
        let h := set_reg h r in
        let h := set_z h (uint16 (countZeros (reg h))) in
        let est := doCount h in
        Some (set_c h est, None)
    end.

Definition Count (h : HyperLogLog) : Z := c h.

(** The merge as the specification words it: every register becomes the
    larger of the two, the zero registers are counted by a full scan, and
    the estimate is recomputed and cached. *)
Definition merge_spec (h other : HyperLogLog) : HyperLogLog :=
  let r := zip_with Z.max (reg h) (reg other) in
  let h' := {| reg := r; m := m h; p := p h; c := c h;
               z := uint16 (countZeros r) |} in
  set_c h' (doCount h').

(** The states a program gets by constructing estimators and adding to,
    merging and clearing them. *)
Inductive reachable : HyperLogLog -> Prop :=
| reach_New precision h :
    New precision = inr h -> reachable h
| reach_Add h x h' :
    reachable h -> 0 <= x < 2 ^ 32 -> Add h x = Some h' -> reachable h'
| reach_Merge h other h' e :
    reachable h -> reachable other -> Merge h other = Some (h', e) -> reachable h'
| reach_Clear h :
    reachable h -> reachable (Clear h).

End Estimator.

(** ** The gob stream

    [encoding/gob] is an external collaborator.  The snapshot methods send
    and receive five top-level values of two predefined wire types,
    [[]byte] and [uint]; the model below covers exactly those.  A message
    is a byte count followed by a body; the body of a top-level non-struct
    value is the type id, a zero field delta and the value.

    The model is that of streams of value messages, which is all that
    [Encode] emits for predefined types.  The library's decoder also
    consumes messages that define new types (a negative type id) before a
    value; parsing those is not modelled, and [singleton] stops at them.
    What is stated of [GobDecode] on every byte sequence is therefore
    stated for an arbitrary [Decoder] (below), of which this model is one
    instance; the model itself is used on the encoder's output. *)

Module Gob.

Definition byte_val (b : byte) : Z := Z.of_N (Byte.to_N b).

Definition to_byte (v : Z) : byte :=
  match Byte.of_N (Z.to_N (v mod 256)) with
  | Some b => b
  | None => x00
  end.

(** Ids of the predefined wire types. *)
Definition tUint : Z := 3.
Definition tBytes : Z := 5.

(** Largest message the decoder accepts (64-bit platforms). *)
Definition tooBig : Z := 2 ^ 33.

(** *** Unsigned integers on the wire

    A value up to 127 is one byte.  A larger value is its minimal
    big-endian byte string, preceded by the negated byte count. *)

Definition byte_len (x : Z) : nat :=
  if x <? 2 ^ 8 then 1 else if x <? 2 ^ 16 then 2
  else if x <? 2 ^ 24 then 3 else if x <? 2 ^ 32 then 4
  else if x <? 2 ^ 40 then 5 else if x <? 2 ^ 48 then 6
  else if x <? 2 ^ 56 then 7 else 8.

Fixpoint be_bytes (n : nat) (x : Z) : list byte :=
  match n with
  | O => []
  | S k => to_byte (x / 256 ^ Z.of_nat k) :: be_bytes k x
  end.

Definition be_val (l : list byte) : Z :=
  fold_left (fun x b => x * 256 + byte_val b) l 0.

Definition encodeUint (x : Z) : list byte :=
  if x <=? 127 then [to_byte x]
  else let n := byte_len x in
       to_byte (- Z.of_nat n) :: be_bytes n x.

(** Signed integers (the type id): the sign is the low bit. *)
Definition encodeInt (i : Z) : list byte :=
  encodeUint (if i <? 0 then Z.lor (Z.shiftl (Z.lnot i) 1) 1 else Z.shiftl i 1).

(** Reads one unsigned integer off the front of [buf]. *)
Definition decodeUint (buf : list byte) : error + (Z * list byte) :=
  match buf with
  | [] => inl decodeError
  | b :: rest =>
      let v := byte_val b in
      if v <=? 127 then inr (v, rest)
      else
        let n := 256 - v in
        if n >? 8 then inl decodeError
        else if Z.of_nat (length rest) <? n then inl decodeError
        else inr (be_val (take (Z.to_nat n) rest), drop (Z.to_nat n) rest)
  end.

Definition toInt (u : Z) : Z :=
  if Z.odd u then Z.lnot (Z.shiftr u 1) else Z.shiftr u 1.

(** Errors propagate through the decoder's steps. *)
#[local] Instance error_bind : MBind (sum error) := fun A B k x =>
  match x with
  | inl e => inl e
  | inr a => k a
  end.

(** *** Encoder

    [Encode] appends one message to the buffer.  Writing to a
    [bytes.Buffer] does not fail. *)

Definition message (id : Z) (value : list byte) : list byte :=
  let body := encodeInt id ++ encodeUint 0 ++ value in
  encodeUint (Z.of_nat (length body)) ++ body.

Definition Encode_bytes (buf : list byte) (v : list Z) : error + list byte :=
  inr (buf ++ message tBytes (encodeUint (Z.of_nat (length v)) ++ map to_byte v)).

Definition Encode_uint (buf : list byte) (v : Z) : error + list byte :=
  inr (buf ++ message tUint (encodeUint v)).

(** *** Decoder

    The decoder state is the unread rest of the input.  One call of
    [Decode] consumes one message and stores nothing unless it
    succeeds. *)

Definition recvMessage (r : list byte) : error + (list byte * list byte) :=
  '(nbytes, r) ← decodeUint r;
  if nbytes >=? tooBig then inl decodeError
  else if Z.of_nat (length r) <? nbytes then inl decodeError
  else inr (take (Z.to_nat nbytes) r, drop (Z.to_nat nbytes) r).

(** The body of a top-level value of the wire type [want].  The type id is
    narrowed to [int32]; a negative one announces a type definition, where
    this model stops. *)
Definition singleton (want : Z) (body : list byte) : error + list byte :=
  '(u, body) ← decodeUint body;
  let id := int32 (toInt u) in
  if id <? 0 then inl decodeError
  else if negb (id =? want) then inl decodeError
  else
    '(delta, body) ← decodeUint body;
    if negb (delta =? 0) then inl decodeError else inr body.

(** [Decode] into a [*[]uint8]. *)
Definition Decode_bytes (r : list byte) : error + (list Z * list byte) :=
  '(body, r) ← recvMessage r;
  body ← singleton tBytes body;
  '(n, body) ← decodeUint body;
  if (n >=? 2 ^ 63) || (Z.of_nat (length body) <? n) || (tooBig <=? n)
  then inl decodeError
  else inr (map byte_val (take (Z.to_nat n) body), r).

(** [Decode] into a pointer to an unsigned integer of [bits] bits. *)
Definition Decode_uint (bits : Z) (r : list byte) : error + (Z * list byte) :=
  '(body, r) ← recvMessage r;
  body ← singleton tUint body;
  '(v, _) ← decodeUint body;
  if 2 ^ bits - 1 <? v then inl decodeError else inr (v, r).

End Gob.

(** ** Snapshots *)

Definition GobEncode (h : HyperLogLog) : error + list byte :=
  let buf := [] in
  match Gob.Encode_bytes buf (reg h) with
  | inl err => inl err
  | inr buf =>
  match Gob.Encode_uint buf (m h) with
  | inl err => inl err
  | inr buf =>
  match Gob.Encode_uint buf (p h) with
  | inl err => inl err
  | inr buf =>
  match Gob.Encode_uint buf (c h) with
  | inl err => inl err
  | inr buf =>
  match Gob.Encode_uint buf (z h) with
  | inl err => inl err
  | inr buf => inr buf
  end end end end end.

(** [GobDecode] returns the receiver after the call and the error ([None]
    for [nil]).  Each field is stored as soon as it is decoded. *)
Definition GobDecode (h : HyperLogLog) (b : list byte) : HyperLogLog * option error :=
  let dec := b in
  match Gob.Decode_bytes dec with
  | inl err => (h, Some err)
  | inr (v, dec) => let h := set_reg h v in
  match Gob.Decode_uint 32 dec with
  | inl err => (h, Some err)
  | inr (v, dec) => let h := set_m h v in
  match Gob.Decode_uint 8 dec with
  | inl err => (h, Some err)
  | inr (v, dec) => let h := set_p h v in
  match Gob.Decode_uint 64 dec with
  | inl err => (h, Some err)
  | inr (v, dec) => let h := set_c h v in
  match Gob.Decode_uint 16 dec with
  | inl err => (h, Some err)
  | inr (v, dec) => let h := set_z h v in
      (h, None)
  end end end end end.

(** *** GobDecode over any decoder

    What [GobDecode] needs of [gob.NewDecoder] and [Decode]: a decoder is
    made from the bytes, and each [Decode] either returns an error and
    leaves its target alone, or yields the value that is stored in the
    target together with the decoder's next state (the unread input and
    whatever the decoder learnt from type definitions). *)
Record Decoder : Type := mkDecoder {
  decoder_state : Type;
  NewDecoder : list byte -> decoder_state;
  Decode_bytes : decoder_state -> error + (list Z * decoder_state);
  Decode_uint : Z -> decoder_state -> error + (Z * decoder_state);
}.

(** The model of the gob stream above, as a decoder. *)
Definition stream_decoder : Decoder :=
  {| decoder_state := list byte;
     NewDecoder := fun b => b;
     Decode_bytes := Gob.Decode_bytes;
     Decode_uint := Gob.Decode_uint |}.

(** [GobDecode] with the decoder [D] for [encoding/gob]. *)
Definition GobDecode_with (D : Decoder) (h : HyperLogLog) (b : list byte)
  : HyperLogLog * option error :=
  let dec := NewDecoder D b in
  match Decode_bytes D dec with
  | inl err => (h, Some err)
  | inr (v, dec) => let h := set_reg h v in
  match Decode_uint D 32 dec with
  | inl err => (h, Some err)
  | inr (v, dec) => let h := set_m h v in
  match Decode_uint D 8 dec with
  | inl err => (h, Some err)
  | inr (v, dec) => let h := set_p h v in
  match Decode_uint D 64 dec with
  | inl err => (h, Some err)
  | inr (v, dec) => let h := set_c h v in
  match Decode_uint D 16 dec with
  | inl err => (h, Some err)
  | inr (v, dec) => let h := set_z h v in
      (h, None)
  end end end end end.

(** ** Predicates of the statements *)

(** The data model of a constructed estimator: a precision in [4,16],
    [m = 2^p] and [m] registers. *)
Record wf (h : HyperLogLog) : Prop := mk_wf {
  wf_p : 4 <= p h <= 16;
  wf_m : m h = 2 ^ p h;
  wf_len : length (reg h) = Z.to_nat (m h);
}.

(** Every field holds a value of its Go type. *)
Record representable (h : HyperLogLog) : Prop := mk_representable {
  rep_reg : Forall (fun v => 0 <= v < 2 ^ 8) (reg h);
  rep_len : Z.of_nat (length (reg h)) <= 2 ^ 32;
  rep_m : 0 <= m h < 2 ^ 32;
  rep_p : 0 <= p h < 2 ^ 8;
  rep_c : 0 <= c h < 2 ^ 64;
  rep_z : 0 <= z h < 2 ^ 16;
}.

(** The cached count of zero registers agrees with the registers. *)
Definition zeros_counted (h : HyperLogLog) : Prop :=
  z h = countZeros (reg h).

(** The same, up to the width of the [uint16] that caches it. *)
Definition zeros_counted_mod (h : HyperLogLog) : Prop :=
  z h = uint16 (countZeros (reg h)).

(** An ordered list of guarded rules of which the first that matches wins. *)
Fixpoint first_match {A : Type} (rules : list (bool * A)) (otherwise : A) : A :=
  match rules with
  | [] => otherwise
  | (guard, v) :: rules' => if guard then v else first_match rules' otherwise
  end.

(** ** Streams of hashes *)

(** The register that [Add] selects for the hash [x] at precision [prec],
    and the rank it records there: the expressions of [Add]. *)
Definition index_of (prec x : Z) : nat :=
  Z.to_nat (eb32 x 32 (uint8 (32 - prec))).

Definition rank_of (prec x : Z) : Z :=
  uint8 (clz32 (Z.lor (shl 32 x prec) (shl 32 1 (uint8 (prec - 1)))) + 1).

(** The registers of an estimator of precision [prec] that has seen the
    hash [x] and nothing else. *)
Definition single (prec x : Z) : list Z :=
  <[index_of prec x := rank_of prec x]> (replicate (Z.to_nat (2 ^ prec)) 0).

Definition reg_sum (s : list Z) : Z := foldr Z.add 0 s.

Section Streams.

Variable Log : float -> float.
Variable oor : float -> Z.

(** [Add] of each hash of [xs] in turn. *)
Fixpoint Add_all (xs : list Z) (h : HyperLogLog) : option HyperLogLog :=
  match xs with
  | [] => Some h
  | x :: xs' =>
      match Add Log oor h x with
      | None => None
      | Some h' => Add_all xs' h'
      end
  end.

(** Both cached values agree with the registers: the zero count up to the
    width of its field, and the estimate. *)
Definition coherent (h : HyperLogLog) : Prop :=
  zeros_counted_mod h /\ c h = doCount Log oor h.

End Streams.

(** The registers hold ranks that [Add] can record at this precision. *)
Definition ranks_capped (h : HyperLogLog) : Prop :=
  Forall (fun v => 0 <= v <= 32 - p h + 1) (reg h).

(** The registers specified for a stream of hashes: every register is the
    largest rank among the hashes that select it, or 0. *)
Definition sketch (prec : Z) (xs : list Z) : list Z :=
  foldr (fun x acc => zip_with Z.max (single prec x) acc)
        (replicate (Z.to_nat (2 ^ prec)) 0) xs.

(** The largest rank among the hashes of [xs] that select register [j],
    or 0 when there is none. *)
Fixpoint max_rank (prec : Z) (j : nat) (xs : list Z) : Z :=
  match xs with
  | [] => 0
  | x :: xs' =>
      if Nat.eqb (index_of prec x) j
      then Z.max (rank_of prec x) (max_rank prec j xs')
      else max_rank prec j xs'
  end.

(** An estimator of the data model with registers that are not negative
    and a zero count that agrees with them up to the width of its field. *)
Definition consistent (h : HyperLogLog) : Prop :=
  wf h /\ Forall (fun v => 0 <= v) (reg h) /\ zeros_counted_mod h.

(** ** A platform to run the model on

    [Log] is a series approximation of the natural logarithm, and an
    out-of-range conversion yields [2^63]. *)

Module Run.

Definition ln2 : float := 0.6931471805599453%float.

(** [y + y^3/3 + y^5/5 + ...], [n] terms from the one of degree [k]. *)
Fixpoint atanh_terms (n : nat) (k : Z) (yk y2 : float) : float :=
  match n with
  | O => 0%float
  | S n' => (yk / F64.of_Z k + atanh_terms n' (k + 2) (yk * y2) y2)%float
  end.

Definition Log (x : float) : float :=
  if (x <? 0)%float then nan
  else if (x =? 0)%float then neg_infinity
  else if is_nan x || is_infinity x then x
  else
    let (mant, e) := Z.frexp x in
    let y := ((mant - 1) / (mant + 1))%float in
    (F64.of_Z e * ln2 + 2 * atanh_terms 40 1 y (y * y))%float.

Definition oor (_ : float) : Z := 2 ^ 63.

End Run.

(** ** Sample states *)

(** A fresh estimator of precision 4. *)
Definition fresh4 : HyperLogLog :=
  {| reg := replicate 16 0; m := 16; p := 4; c := 0; z := 16 |}.

(** The same after [Add] of the hash [2^31] on the run platform. *)
Definition added4 : HyperLogLog :=
  {| reg := <[8%nat := 29]> (replicate 16 0); m := 16; p := 4; c := 1; z := 15 |}.

(** A fresh estimator of precision 5. *)
Definition fresh5 : HyperLogLog :=
  {| reg := replicate 32 0; m := 32; p := 5; c := 0; z := 32 |}.

(** Sixteen registers whose raw estimate falls between the integer
    quotient [two32/30] and the exact one. *)
Definition gap_registers : list Z :=
  [20; 22; 27; 28; 33; 35; 39; 40; 41; 42; 44; 46; 47; 48; 49; 63].

Definition gap_state : HyperLogLog :=
  {| reg := gap_registers; m := 16; p := 4; c := 0; z := 0 |}.

(** A snapshot stream cut off after its first message. *)
Definition truncated_snapshot : list byte :=
  Gob.message Gob.tBytes (Gob.encodeUint 2 ++ map Gob.to_byte [1; 2]).

(** A state that breaks every constraint of the data model. *)
Definition inconsistent_state : HyperLogLog :=
  {| reg := [1; 0]; m := 16; p := 3; c := 12345; z := 7 |}.

(** * Facts *)

(** ** Fixed-width arithmetic *)

Lemma wrap_range w x : 0 <= w -> 0 <= wrap w x < 2 ^ w.
Proof. intros Hw. unfold wrap. apply Z.mod_pos_bound. by apply Z.pow_pos_nonneg. Qed.

Lemma wrap_small w x : 0 <= x < 2 ^ w -> wrap w x = x.
Proof. intros Hx. unfold wrap. by apply Z.mod_small. Qed.

Lemma shl_one w n : 0 <= n < w -> shl w 1 n = 2 ^ n.
Proof.
  intros Hn. unfold shl. rewrite Z.shiftl_1_l. apply wrap_small.
  split; [by apply Z.pow_nonneg|]. apply Z.pow_lt_mono_r; lia.
Qed.

Lemma shl_mul w x n : 0 <= n -> shl w x n = (x * 2 ^ n) mod 2 ^ w.
Proof. intros Hn. unfold shl, wrap. by rewrite Z.shiftl_mul_pow2. Qed.

Lemma uint8_small x : 0 <= x < 256 -> uint8 x = x.
Proof. intros Hx. apply wrap_small. simpl. lia. Qed.

(** ** Bit extraction and leading zeros *)

Lemma eb32_top x lo :
  0 <= x < 2 ^ 32 -> 0 <= lo -> eb32 x 32 lo = x / 2 ^ lo.
Proof.
  intros Hx Hlo. unfold eb32.
  rewrite Z.land_ones by lia. rewrite Z.mod_small by lia.
  by rewrite Z.shiftr_div_pow2.
Qed.

Lemma top_bits_range x k :
  0 <= x < 2 ^ 32 -> 0 <= k <= 32 -> 0 <= x / 2 ^ (32 - k) < 2 ^ k.
Proof.
  intros Hx Hk.
  assert (0 < 2 ^ (32 - k)) by (apply Z.pow_pos_nonneg; lia).
  split; [apply Z.div_pos; lia|].
  apply Z.div_lt_upper_bound; [lia|].
  rewrite <- Z.pow_add_r by lia.
  replace (32 - k + k) with 32 by lia. lia.
Qed.

Lemma testbit_top w k :
  0 <= k -> 0 <= w < 2 ^ (k + 1) ->
  if Z.testbit w k then 2 ^ k <= w else w < 2 ^ k.
Proof.
  intros Hk Hw.
  assert (Hpos : 0 < 2 ^ k) by (apply Z.pow_pos_nonneg; lia).
  pose proof (Z.testbit_spec' w k Hk) as Hb.
  assert (Hq : 0 <= w / 2 ^ k < 2).
  { split; [apply Z.div_pos; lia|].
    apply Z.div_lt_upper_bound; [lia|]. rewrite Z.pow_add_r in Hw; lia. }
  rewrite (Z.mod_small _ 2) in Hb by lia.
  pose proof (Z.div_mod w (2 ^ k) ltac:(lia)) as Hdm.
  pose proof (Z.mod_pos_bound w (2 ^ k) Hpos) as Hm.
  destruct (Z.testbit w k); simpl in Hb; nia.
Qed.

Lemma clz_log2 n w :
  0 < w < 2 ^ Z.of_nat n -> clz n w = Z.of_nat n - 1 - Z.log2 w.
Proof.
  induction n as [|k IH]; intros Hw.
  - simpl in Hw. lia.
  - cbn [clz].
    assert (Hw' : 0 <= w < 2 ^ (Z.of_nat k + 1)).
    { replace (Z.of_nat k + 1) with (Z.of_nat (S k)) by lia. lia. }
    pose proof (testbit_top w (Z.of_nat k) ltac:(lia) Hw') as Hb.
    destruct (Z.testbit w (Z.of_nat k)).
    + assert (Z.log2 w = Z.of_nat k) as ->; [|lia].
      apply Z.log2_unique; [lia|]. replace (Z.succ (Z.of_nat k)) with (Z.of_nat k + 1) by lia. lia.
    + rewrite IH by lia. lia.
Qed.

Lemma clz32_log2 w : 0 < w < 2 ^ 32 -> clz32 w = 31 - Z.log2 w.
Proof. intros Hw. unfold clz32. rewrite clz_log2; [lia|]. exact Hw. Qed.

(** The word whose leading zeros [Add] counts: the guard bit keeps it
    positive and bounds the count. *)
Lemma guarded_word x k :
  0 <= x -> 1 <= k <= 32 ->
  let w := Z.lor ((x * 2 ^ k) mod 2 ^ 32) (2 ^ (k - 1)) in
  0 < w < 2 ^ 32 /\ k - 1 <= Z.log2 w <= 31.
Proof.
  intros Hx Hk w.
  assert (Ha : 0 <= (x * 2 ^ k) mod 2 ^ 32 < 2 ^ 32) by (apply Z.mod_pos_bound; lia).
  assert (Hg : 0 < 2 ^ (k - 1)) by (apply Z.pow_pos_nonneg; lia).
  assert (Hg2 : 2 ^ (k - 1) < 2 ^ 32) by (apply Z.pow_lt_mono_r; lia).
  assert (Hw0 : 0 <= w) by (apply Z.lor_nonneg; lia).
  assert (Hwne : w <> 0).
  { unfold w. rewrite Z.lor_eq_0_iff. lia. }
  assert (Hlog : Z.log2 w = Z.max (Z.log2 ((x * 2 ^ k) mod 2 ^ 32)) (k - 1)).
  { unfold w. rewrite Z.log2_lor by lia. rewrite Z.log2_pow2 by lia. done. }
  assert (Hla : Z.log2 ((x * 2 ^ k) mod 2 ^ 32) <= 31).
  { destruct (Z.eq_dec ((x * 2 ^ k) mod 2 ^ 32) 0) as [->|Hne]; [simpl; lia|].
    assert (Z.log2 ((x * 2 ^ k) mod 2 ^ 32) < 32); [|lia].
    apply Z.log2_lt_pow2; lia. }
  assert (Hlw : Z.log2 w <= 31) by lia.
  split; [|lia]. split; [lia|].
  apply Z.log2_lt_pow2; lia.
Qed.

(** ** Add *)

Section AddFacts.

Variable Log : float -> float.
Variable oor : float -> Z.

(** C2: for an estimator of precision [p] with its [2^p] registers and a
    32-bit hash [x], [Add] takes the register index [i] from the top [p]
    bits of [x], counts the leading zeros of [w = (x << p) | 1 << (p-1)]
    for [rank = clz(w) + 1] (between 1 and [32 - p + 1]), and when
    [rank > registers[i]] it decrements [zero_register_count] if the
    register was 0, stores [rank] in the register and caches the
    recomputed estimate; otherwise it leaves the estimator as it was. *)
Theorem Add_computes (h : HyperLogLog) (x : Z) :
  wf h -> 0 <= x < 2 ^ 32 ->
  let i := x / 2 ^ (32 - p h) in
  let w := Z.lor ((x * 2 ^ p h) mod 2 ^ 32) (2 ^ (p h - 1)) in
  let rank := clz32 w + 1 in
  exists r,
    0 <= i < m h /\ reg h !! Z.to_nat i = Some r /\
    rank = 32 - Z.log2 w /\ 1 <= rank <= 32 - p h + 1 /\
    Add Log oor h x =
      Some (if rank >? r then
              let h' := {| reg := <[Z.to_nat i := rank]> (reg h);
                           m := m h; p := p h; c := c h;
                           z := if r =? 0 then uint16 (z h - 1) else z h |} in
              set_c h' (doCount Log oor h')
            else h).
Proof.
  intros [Hp Hm Hlen] Hx i w rank.
  destruct (guarded_word x (p h) ltac:(lia) ltac:(lia)) as [Hw Hlog].
  fold w in Hw, Hlog.
  assert (Hrank : rank = 32 - Z.log2 w).
  { unfold rank. rewrite clz32_log2 by exact Hw. lia. }
  assert (Hi : 0 <= i < m h).
  { rewrite Hm. apply top_bits_range; lia. }
  assert (Hsome : is_Some (reg h !! Z.to_nat i)).
  { apply lookup_lt_is_Some. rewrite Hlen. lia. }
  destruct Hsome as [r Hr]. exists r.
  split; [exact Hi|]. split; [exact Hr|]. split; [exact Hrank|]. split; [lia|].
  unfold Add.
  rewrite (uint8_small (32 - p h)) by lia.
  rewrite (uint8_small (p h - 1)) by lia.
  rewrite eb32_top by lia.
  rewrite shl_mul by lia. rewrite shl_one by lia.
  fold i. fold w. fold rank.
  rewrite (uint8_small rank) by lia.
  rewrite Hr.
  destruct (rank >? r); [|reflexivity].
  destruct (r =? 0); reflexivity.
Qed.

(** [Add] changes neither the precision nor the number of registers. *)
Lemma Add_shape h x h' :
  Add Log oor h x = Some h' ->
  p h' = p h /\ m h' = m h /\ length (reg h') = length (reg h).
Proof.
  unfold Add. intros H.
  destruct (reg h !! _) as [r|]; [|discriminate].
  destruct (_ >? r).
  - destruct (r =? 0); inversion H; subst; cbn; by rewrite length_insert.
  - by inversion H; subst.
Qed.

Lemma Add_wf h x h' : wf h -> Add Log oor h x = Some h' -> wf h'.
Proof.
  intros [Hp Hm Hlen] H. destruct (Add_shape _ _ _ H) as (Hp' & Hm' & Hl').
  constructor; congruence.
Qed.

(** A second [Add] of the same item finds its rank already recorded. *)
Lemma Add_again h x h' :
  Add Log oor h x = Some h' -> Add Log oor h' x = Some h'.
Proof.
  intros H. pose proof (Add_shape _ _ _ H) as (Hp' & _ & _).
  revert H. unfold Add. rewrite Hp'.
  set (i := Z.to_nat (eb32 x 32 (uint8 (32 - p h)))).
  set (zeroBits := uint8 (clz32 _ + 1)).
  destruct (reg h !! i) as [r|] eqn:Hr; [|discriminate].
  destruct (zeroBits >? r) eqn:Hgt; intros H.
  - assert (Hlk : reg h' !! i = Some zeroBits).
    { apply lookup_lt_Some in Hr.
      destruct (r =? 0); inversion H; subst; cbn;
        by apply list_lookup_insert_eq. }
    rewrite Hlk.
    rewrite Z.gtb_ltb, Z.ltb_irrefl. done.
  - inversion H; subst h'. by rewrite Hr, Hgt.
Qed.

(** On an estimator with its [2^p] registers the index is in range and
    [Add] returns. *)
Lemma Add_total h x :
  wf h -> 0 <= x < 2 ^ 32 -> exists h1, Add Log oor h x = Some h1.
Proof.
  intros [Hp Hm Hlen] Hx. unfold Add.
  rewrite (uint8_small (32 - p h)) by lia. rewrite eb32_top by lia.
  pose proof (top_bits_range x (p h) Hx ltac:(lia)) as Hi.
  destruct (lookup_lt_is_Some_2 (reg h) (Z.to_nat (x / 2 ^ (32 - p h)))) as [r Hr].
  { rewrite Hlen, Hm. lia. }
  rewrite Hr. destruct (_ >? r); eauto.
Qed.

Lemma Add_repeat_fixed h x n :
  Add Log oor h x = Some h -> Add_repeat Log oor n h x = Some h.
Proof. intros H. induction n as [|k IH]; [done|]. cbn [Add_repeat]. by rewrite H. Qed.

(** C9: after the first [Add] of a hash, any number of further [Add]s of
    the same hash leave the whole estimator, and so [Count()], as the first
    one left it: [n + 1] calls end in the state of the first. *)
Theorem Add_idempotent (h : HyperLogLog) (x : Z) :
  wf h -> 0 <= x < 2 ^ 32 ->
  exists h1,
    Add Log oor h x = Some h1 /\
    Add Log oor h1 x = Some h1 /\
    forall n, exists hn,
      Add_repeat Log oor (S n) h x = Some hn /\ hn = h1 /\ Count hn = Count h1.
Proof.
  intros Hwf Hx. destruct (Add_total h x Hwf Hx) as [h1 H1].
  pose proof (Add_again _ _ _ H1) as H2.
  exists h1. split; [exact H1|]. split; [exact H2|].
  intros n. exists h1. cbn [Add_repeat]. rewrite H1.
  by rewrite Add_repeat_fixed.
Qed.

End AddFacts.

(** ** Counting zero registers *)

Lemma countZeros_replicate n : countZeros (replicate n 0) = Z.of_nat n.
Proof. induction n as [|n IH]; [done|]. cbn [replicate countZeros]. rewrite IH. simpl. lia. Qed.

Lemma countZeros_range s : 0 <= countZeros s <= Z.of_nat (length s).
Proof.
  induction s as [|v s IH]; [simpl; lia|].
  cbn [countZeros length]. destruct (v =? 0); lia.
Qed.

Lemma countZeros_insert s i r v :
  s !! i = Some r ->
  countZeros (<[i := v]> s) =
  countZeros s - (if r =? 0 then 1 else 0) + (if v =? 0 then 1 else 0).
Proof.
  revert i. induction s as [|a s IH]; intros i Hi; [done|].
  destruct i as [|i].
  - inversion Hi; subst. cbn. lia.
  - cbn in Hi. cbn [countZeros]. change (<[S i:=v]> (a :: s)) with (a :: <[i:=v]> s).
    cbn [countZeros]. rewrite (IH _ Hi). lia.
Qed.

Lemma countZeros_nonzero s i v :
  s !! i = Some v -> v <> 0 -> countZeros s < Z.of_nat (length s).
Proof.
  revert i. induction s as [|a s IH]; intros i Hi Hv; [done|].
  cbn [countZeros length]. destruct i as [|i].
  - inversion Hi; subst. pose proof (countZeros_range s).
    destruct (v =? 0) eqn:E; lia.
  - cbn in Hi. specialize (IH _ Hi Hv). destruct (a =? 0); lia.
Qed.

Lemma clz_range n w : 0 <= clz n w <= Z.of_nat n.
Proof. induction n as [|k IH]; [simpl; lia|]. cbn [clz]. destruct (Z.testbit _ _); lia. Qed.

Lemma rank_positive w : 1 <= uint8 (clz32 w + 1) <= 33.
Proof.
  pose proof (clz_range 32 w) as H. unfold clz32.
  rewrite uint8_small; lia.
Qed.

(** ** New and Clear *)

Lemma New_error precision :
  precision < 4 \/ 16 < precision ->
  New precision = inl (errorString "precision must be between 4 and 16").
Proof.
  intros H. unfold New.
  destruct (precision >? 16) eqn:E1; [done|].
  destruct (precision <? 4) eqn:E2; [done|]. lia.
Qed.

Lemma New_ok precision :
  4 <= precision <= 16 ->
  New precision =
  inr {| reg := replicate (Z.to_nat (2 ^ precision)) 0;
         m := 2 ^ precision; p := precision; c := 0;
         z := uint16 (2 ^ precision) |}.
Proof.
  intros H. unfold New.
  destruct (precision >? 16) eqn:E1; [lia|].
  destruct (precision <? 4) eqn:E2; [lia|].
  cbn [orb]. by rewrite shl_one by lia.
Qed.

Lemma New_wf precision h : New precision = inr h -> wf h.
Proof.
  intros H. assert (Hp : 4 <= precision <= 16).
  { unfold New in H. destruct (precision >? 16) eqn:E1; [done|].
    destruct (precision <? 4) eqn:E2; [done|]. lia. }
  rewrite New_ok in H by exact Hp. inversion H; subst.
  constructor; cbn; [lia|done|by rewrite length_replicate].
Qed.

(** Below precision 16 the fresh estimator is as the data model has it. *)
Lemma New_below_16 precision :
  4 <= precision <= 15 ->
  exists h, New precision = inr h /\ m h = 2 ^ precision /\
    reg h = replicate (Z.to_nat (m h)) 0 /\ z h = m h /\ c h = 0 /\ Count h = 0.
Proof.
  intros H. eexists. split; [by apply New_ok; lia|]. cbn.
  repeat split. apply wrap_small. split; [by apply Z.pow_nonneg|].
  apply Z.pow_lt_mono_r; lia.
Qed.

Lemma Clear_fields h :
  reg (Clear h) = replicate (Z.to_nat (m h)) 0 /\ m (Clear h) = m h /\
  p (Clear h) = p h /\ c (Clear h) = 0 /\ z (Clear h) = uint16 (m h).
Proof. done. Qed.

Lemma Clear_wf h : wf h -> wf (Clear h).
Proof. intros [Hp Hm Hl]. constructor; cbn; [done|done|by rewrite length_replicate]. Qed.

Lemma New_16_fields : exists h, New 16 = inr h /\ m h = 65536.
Proof. eexists. split; [by apply New_ok|]. done. Qed.

(** C8: [New(16)] succeeds with 65536 registers, all zero, but its
    [zero_register_count], a [uint16], is 0 and not [m]. *)
Theorem New_16_zero_count :
  exists h, New 16 = inr h /\ m h = 65536 /\ countZeros (reg h) = 65536 /\
    z h = 0 /\ Count h = 0.
Proof.
  eexists. split; [by apply New_ok|]. cbn [m reg z c Count].
  rewrite countZeros_replicate. rewrite Z2Nat.id by lia. done.
Qed.

(** C6: [Clear] on the estimator of [New(16)] leaves 65536 zero registers
    and a [zero_register_count] of 0. *)
Theorem Clear_16_zero_count :
  exists h, New 16 = inr h /\ wf h /\
    countZeros (reg (Clear h)) = 65536 /\ z (Clear h) = 0.
Proof.
  destruct New_16_fields as (h & Hn & Hm).
  exists h. split; [done|]. split; [by eapply New_wf|].
  destruct (Clear_fields h) as (-> & _ & _ & _ & ->).
  rewrite countZeros_replicate, Hm. done.
Qed.

(** ** Merge *)

Lemma zip_max_comm (a b : list Z) : zip_with Z.max a b = zip_with Z.max b a.
Proof.
  revert b. induction a as [|x a IH]; intros [|y b]; cbn; [done..|].
  by rewrite Z.max_comm, IH.
Qed.

Lemma zip_max_assoc (a b d : list Z) :
  zip_with Z.max (zip_with Z.max a b) d = zip_with Z.max a (zip_with Z.max b d).
Proof.
  revert b d. induction a as [|x a IH]; intros [|y b] [|v d]; cbn; [done..|].
  by rewrite Z.max_assoc, IH.
Qed.

Lemma merge_loop_max other : forall (r : list Z) (i : nat),
  (i + length other <= length r)%nat ->
  merge_loop i other r =
  Some (take i r ++ zip_with Z.max (take (length other) (drop i r)) other
          ++ drop (i + length other) r).
Proof.
  induction other as [|v other IH]; intros r i Hlen.
  - cbn [merge_loop length zip_with take]. rewrite Nat.add_0_r.
    change (take 0 (drop i r)) with (@nil Z). cbn [zip_with app].
    by rewrite take_drop.
  - cbn [merge_loop]. cbn [length] in Hlen.
    destruct (lookup_lt_is_Some_2 r i ltac:(lia)) as [ri Hri].
    rewrite Hri.
    assert (Hr' : (if v >? ri then <[i:=v]> r else r) = <[i:=Z.max ri v]> r).
    { destruct (v >? ri) eqn:E.
      - by rewrite Z.max_r by lia.
      - rewrite Z.max_l by lia. by rewrite list_insert_id. }
    rewrite Hr'. rewrite IH by (rewrite length_insert; lia).
    f_equal.
    rewrite (take_S_r _ _ (Z.max ri v)) by (apply list_lookup_insert_eq; lia).
    rewrite take_insert_ge by lia.
    rewrite !drop_insert_lt by lia.
    rewrite (drop_S r ri i Hri). cbn [length take zip_with].
    rewrite <- app_assoc. cbn [app].
    by replace (S i + length other)%nat with (i + S (length other))%nat by lia.
Qed.

Lemma merge_loop_same_length (other r : list Z) :
  length other = length r ->
  merge_loop 0 other r = Some (zip_with Z.max r other).
Proof.
  intros Hlen. rewrite merge_loop_max by lia.
  change (take 0 r) with (@nil Z). change (drop 0 r) with r.
  cbn [app Nat.add]. rewrite Hlen, take_ge, drop_ge by lia.
  by rewrite app_nil_r.
Qed.

Section MergeFacts.

Variable Log : float -> float.
Variable oor : float -> Z.

(** The estimate reads the registers, [m] and the zero count only. *)
Lemma doCount_ext h h' :
  reg h = reg h' -> m h = m h' -> z h = z h' ->
  doCount Log oor h = doCount Log oor h'.
Proof. intros Hr Hm Hz. unfold doCount. by rewrite Hr, Hm, Hz. Qed.

(** Estimators of one precision have as many registers: [Merge] is the
    register-wise maximum. *)
Lemma Merge_ok h other :
  wf h -> wf other -> p h = p other ->
  Merge Log oor h other = Some (merge_spec Log oor h other, None).
Proof.
  intros [Hp Hm Hl] [Hp' Hm' Hl'] Hpp. unfold Merge.
  rewrite Hpp, Z.eqb_refl. cbn [negb].
  rewrite merge_loop_same_length by congruence.
  reflexivity.
Qed.

Lemma merge_spec_wf h other : wf h -> wf other -> p h = p other -> wf (merge_spec Log oor h other).
Proof.
  intros [Hp Hm Hl] [Hp' Hm' Hl'] Hpp. constructor; cbn; [done|done|].
  rewrite length_zip_with. rewrite Hl, Hl'. rewrite Hm, Hm', Hpp. lia.
Qed.

Lemma merge_spec_comm h other :
  wf h -> wf other -> p h = p other ->
  merge_spec Log oor h other = merge_spec Log oor other h.
Proof.
  intros [Hp Hm Hl] [Hp' Hm' Hl'] Hpp. unfold merge_spec, set_c. cbn.
  assert (Hmm : m h = m other) by congruence.
  rewrite (zip_max_comm (reg h) (reg other)). rewrite Hmm, Hpp.
  reflexivity.
Qed.

Lemma merge_spec_assoc A B C :
  merge_spec Log oor (merge_spec Log oor A B) C =
  merge_spec Log oor A (merge_spec Log oor B C).
Proof.
  unfold merge_spec, set_c. cbn. rewrite zip_max_assoc.
  reflexivity.
Qed.

(** C4: for estimators of equal precision, [A.Merge(B)] and [B.Merge(A)]
    succeed and leave the same registers and the same [Count()] (indeed
    the same estimator), and merging [B] then [C] into [A] leaves the same
    registers as merging into [A] the result of merging [C] into [B]. *)
Theorem Merge_comm_assoc (A B C : HyperLogLog) :
  wf A -> wf B -> wf C -> p A = p B -> p B = p C ->
  exists AB BA BC AB_C A_BC,
    Merge Log oor A B = Some (AB, None) /\
    Merge Log oor B A = Some (BA, None) /\
    reg AB = reg BA /\ Count AB = Count BA /\ AB = BA /\
    Merge Log oor AB C = Some (AB_C, None) /\
    Merge Log oor B C = Some (BC, None) /\
    Merge Log oor A BC = Some (A_BC, None) /\
    reg AB_C = reg A_BC /\ AB_C = A_BC.
Proof.
  intros HA HB HC HAB HBC.
  exists (merge_spec Log oor A B), (merge_spec Log oor B A),
         (merge_spec Log oor B C),
         (merge_spec Log oor (merge_spec Log oor A B) C),
         (merge_spec Log oor A (merge_spec Log oor B C)).
  pose proof (merge_spec_comm A B HA HB HAB) as Hcomm.
  pose proof (merge_spec_assoc A B C) as Hassoc.
  pose proof (merge_spec_wf A B HA HB HAB) as HwAB.
  pose proof (merge_spec_wf B C HB HC HBC) as HwBC.
  split; [by apply Merge_ok|].
  split; [by apply Merge_ok|].
  split; [by rewrite Hcomm|]. split; [by rewrite Hcomm|]. split; [done|].
  split; [apply Merge_ok; [done|done|cbn; congruence]|].
  split; [by apply Merge_ok|].
  split; [apply Merge_ok; [done|done|cbn; congruence]|].
  split; [by rewrite Hassoc|done].
Qed.

(** C7: when the precisions differ, [Merge] returns its error and the
    receiver is as it was: registers, zero count, cached estimate and
    [Count()]. *)
Theorem Merge_precision_mismatch (h other : HyperLogLog) :
  p h <> p other ->
  exists h', Merge Log oor h other = Some (h', Some (errorString "precisions must be equal")) /\
    h' = h /\ reg h' = reg h /\ z h' = z h /\ c h' = c h /\ Count h' = Count h.
Proof.
  intros Hne. exists h. unfold Merge.
  destruct (p h =? p other) eqn:E; [lia|]. done.
Qed.

(** ** The cached zero count through the mutating operations *)

Lemma Add_zeros_counted_mod h x h' :
  zeros_counted_mod h -> Add Log oor h x = Some h' -> zeros_counted_mod h'.
Proof.
  unfold zeros_counted_mod, Add. intros Hz.
  set (i := Z.to_nat _). set (zeroBits := uint8 (clz32 _ + 1)).
  assert (Hzb : 1 <= zeroBits <= 33) by apply rank_positive.
  destruct (reg h !! i) as [r|] eqn:Hr; [|discriminate].
  destruct (zeroBits >? r) eqn:Hgt; intros H; [|by inversion H; subst].
  destruct (r =? 0) eqn:Hr0; inversion H; subst h'; cbn.
  - rewrite (countZeros_insert _ _ _ _ Hr), Hr0.
    destruct (zeroBits =? 0) eqn:E; [lia|].
    rewrite Hz. unfold uint16, wrap.
    rewrite Zminus_mod_idemp_l. f_equal. lia.
  - rewrite (countZeros_insert _ _ _ _ Hr), Hr0.
    destruct (zeroBits =? 0) eqn:E; [lia|].
    rewrite Hz. f_equal. lia.
Qed.

Lemma Add_register_nonzero h x h' :
  Add Log oor h x = Some h' -> exists i v, reg h' !! i = Some v /\ v <> 0.
Proof.
  unfold Add.
  set (i := Z.to_nat _). set (zeroBits := uint8 (clz32 _ + 1)).
  assert (Hzb : 1 <= zeroBits <= 33) by apply rank_positive.
  destruct (reg h !! i) as [r|] eqn:Hr; [|discriminate].
  destruct (zeroBits >? r) eqn:Hgt; intros H.
  - exists i, zeroBits. split; [|lia].
    apply lookup_lt_Some in Hr.
    destruct (r =? 0); inversion H; subst; cbn; by apply list_lookup_insert_eq.
  - inversion H; subst h'. exists i, r. split; [done|lia].
Qed.

(** After an [Add] some register is not zero, so the count fits the
    [uint16] whatever the precision. *)
Lemma Add_zeros_counted h x h' :
  wf h -> zeros_counted_mod h -> Add Log oor h x = Some h' -> zeros_counted h'.
Proof.
  intros Hwf Hz H.
  pose proof (Add_zeros_counted_mod _ _ _ Hz H) as Hz'.
  pose proof (Add_wf _ _ _ _ _ Hwf H) as [Hp Hm Hl].
  destruct (Add_register_nonzero _ _ _ H) as (i & v & Hi & Hv).
  pose proof (countZeros_nonzero _ _ _ Hi Hv) as Hlt.
  pose proof (countZeros_range (reg h')) as Hrange.
  unfold zeros_counted. rewrite Hz'. apply wrap_small.
  rewrite Hl, Hm in Hlt. rewrite Z2Nat.id in Hlt by (apply Z.pow_nonneg; lia).
  assert (2 ^ p h' <= 2 ^ 16) by (apply Z.pow_le_mono_r; lia). lia.
Qed.

Lemma Merge_zeros_counted_mod h other h' e :
  Merge Log oor h other = Some (h', e) -> zeros_counted_mod h -> zeros_counted_mod h'.
Proof.
  unfold Merge. destruct (negb _); [by intros [= <- _]|].
  destruct (merge_loop _ _ _); [|done]. by intros [= <- _] _.
Qed.

Lemma Clear_zeros_counted_mod h : wf h -> zeros_counted_mod (Clear h).
Proof.
  intros [Hp Hm Hl]. unfold zeros_counted_mod. cbn.
  rewrite countZeros_replicate, Z2Nat.id; [done|].
  rewrite Hm. apply Z.pow_nonneg. lia.
Qed.

(** Below precision 16 the count always fits. *)
Lemma zeros_counted_below_16 h :
  wf h -> p h <= 15 -> zeros_counted_mod h -> zeros_counted h.
Proof.
  intros [Hp Hm Hl] Hp15 Hz. unfold zeros_counted. rewrite Hz.
  apply wrap_small. pose proof (countZeros_range (reg h)) as Hr.
  rewrite Hl, Hm in Hr. rewrite Z2Nat.id in Hr by (apply Z.pow_nonneg; lia).
  assert (2 ^ p h <= 2 ^ 15) by (apply Z.pow_le_mono_r; lia). lia.
Qed.

End MergeFacts.

(** ** Reachable states *)

Lemma trunc_nonneg f t : F64.trunc f = Some t -> 0 <= t.
Proof.
  unfold F64.trunc. destruct (Prim2SF f) as [s| | |s mnt e]; try discriminate.
  - by intros [= <-].
  - assert (Ht : 0 <= (if 0 <=? e then Z.pos mnt * 2 ^ e else Z.pos mnt / 2 ^ (- e))).
    { destruct (Z.leb_spec 0 e).
      - apply Z.mul_nonneg_nonneg; [lia|]. by apply Z.pow_nonneg.
      - apply Z.div_pos; [lia|]. apply Z.pow_pos_nonneg; lia. }
    destruct s.
    + destruct (_ =? 0); [|discriminate]. by intros [= <-].
    + by intros [= <-].
Qed.

Lemma to_uint64_range oor f : 0 <= F64.to_uint64 oor f < 2 ^ 64.
Proof.
  unfold F64.to_uint64.
  pose proof (wrap_range 64 (oor f) ltac:(lia)) as Hw.
  destruct (F64.trunc f) as [t|] eqn:E; [|exact Hw].
  apply trunc_nonneg in E.
  destruct (Z.ltb_spec t (2 ^ 64)); [lia|exact Hw].
Qed.

Lemma Forall_zip_max (P : Z -> Prop) (a b : list Z) :
  Forall P a -> Forall P b -> Forall P (zip_with Z.max a b).
Proof.
  intros Ha. revert b. induction Ha as [|x a Hx _ IH]; intros b Hb; [constructor|].
  destruct Hb as [|y b Hy Hb]; [constructor|]. cbn [zip_with].
  constructor; [|by apply IH].
  destruct (Z.max_spec x y) as [[_ ->]|[_ ->]]; done.
Qed.

Section ReachableFacts.

Variable Log : float -> float.
Variable oor : float -> Z.

Lemma doCount_range h : 0 <= doCount Log oor h < 2 ^ 64.
Proof.
  unfold doCount.
  repeat match goal with |- context [if ?b then _ else _] => destruct b end;
    apply to_uint64_range.
Qed.

Lemma New_representable precision h : New precision = inr h -> representable h.
Proof.
  intros H. assert (Hp : 4 <= precision <= 16).
  { unfold New in H. destruct (precision >? 16) eqn:E1; [done|].
    destruct (precision <? 4) eqn:E2; [done|]. lia. }
  rewrite New_ok in H by exact Hp. inversion H; subst; clear H.
  assert (Hpow : 0 < 2 ^ precision <= 2 ^ 16).
  { split; [apply Z.pow_pos_nonneg; lia|apply Z.pow_le_mono_r; lia]. }
  constructor; cbn [reg m p c z]; try lia.
  - apply Forall_replicate. lia.
  - rewrite length_replicate, Z2Nat.id; lia.
  - apply (wrap_range 16). lia.
Qed.

Lemma New_zeros_counted_mod precision h : New precision = inr h -> zeros_counted_mod h.
Proof.
  intros H. assert (Hp : 4 <= precision <= 16).
  { unfold New in H. destruct (precision >? 16) eqn:E1; [done|].
    destruct (precision <? 4) eqn:E2; [done|]. lia. }
  rewrite New_ok in H by exact Hp. inversion H; subst; clear H.
  unfold zeros_counted_mod. cbn [reg z].
  rewrite countZeros_replicate, Z2Nat.id; [done|]. apply Z.pow_nonneg. lia.
Qed.

Lemma Add_representable h x h' :
  representable h -> Add Log oor h x = Some h' -> representable h'.
Proof.
  intros [Hreg Hlen Hm Hp Hc Hz]. unfold Add.
  set (i := Z.to_nat _). set (zeroBits := uint8 (clz32 _ + 1)).
  assert (Hzb : 1 <= zeroBits <= 33) by apply rank_positive.
  destruct (reg h !! i) as [r|] eqn:Hr; [|discriminate].
  destruct (zeroBits >? r); intros H; [|by inversion H; subst].
  assert (Hz' : 0 <= uint16 (z h - 1) < 2 ^ 16) by (apply (wrap_range 16); lia).
  destruct (r =? 0); inversion H; subst h'; clear H;
    (constructor; cbn [reg m p c z set_c set_reg set_z];
     [apply Forall_insert; [done|lia]
     |by rewrite length_insert
     |done|done|apply doCount_range|done]).
Qed.

Lemma merge_spec_representable h other :
  representable h -> representable other -> representable (merge_spec Log oor h other).
Proof.
  intros [Hreg Hlen Hm Hp Hc Hz] [Hreg' Hlen' _ _ _ _].
  constructor; cbn [merge_spec reg m p c z set_c]; try done.
  - by apply Forall_zip_max.
  - rewrite length_zip_with. lia.
  - apply doCount_range.
  - apply (wrap_range 16). lia.
Qed.

Lemma Clear_representable h : representable h -> representable (Clear h).
Proof.
  intros [Hreg Hlen Hm Hp Hc Hz].
  constructor; cbn [Clear reg m p c z set_c set_reg set_z]; try done.
  - apply Forall_replicate. lia.
  - rewrite length_replicate, Z2Nat.id; lia.
  - apply (wrap_range 16). lia.
Qed.

(** Every reachable state has the shape of the data model, holds values
    of its fields' types, and caches the count of its zero registers up to
    the width of [zero_register_count]. *)
Lemma reachable_invariant h :
  reachable Log oor h -> wf h /\ representable h /\ zeros_counted_mod h.
Proof.
  induction 1 as [precision h Hnew
                 |h x h' _ (Hwf & Hrep & Hz) Hx Hadd
                 |h other h' e _ (Hwf & Hrep & Hz) _ (Hwf' & Hrep' & Hz') Hmerge
                 |h _ (Hwf & Hrep & Hz)].
  - split; [by eapply New_wf|]. split; [by eapply New_representable|].
    by eapply New_zeros_counted_mod.
  - split; [by eapply Add_wf|]. split; [by eapply Add_representable|].
    by eapply Add_zeros_counted_mod.
  - destruct (Z.eq_dec (p h) (p other)) as [Heq|Hne].
    + rewrite Merge_ok in Hmerge by done. inversion Hmerge; subst h' e.
      split; [by apply merge_spec_wf|]. split; [by apply merge_spec_representable|].
      reflexivity.
    + unfold Merge in Hmerge. destruct (p h =? p other) eqn:E; [lia|].
      cbn [negb] in Hmerge. by inversion Hmerge; subst h' e.
  - split; [by apply Clear_wf|]. split; [by apply Clear_representable|].
    by apply Clear_zeros_counted_mod.
Qed.

(** Below precision 16 the cached count of a reachable state is exact. *)
Lemma reachable_zeros_counted h :
  reachable Log oor h -> p h <= 15 -> zeros_counted h.
Proof.
  intros Hr Hp. destruct (reachable_invariant h Hr) as (Hwf & _ & Hz).
  by apply zeros_counted_below_16.
Qed.

End ReachableFacts.

(** ** The gob stream *)

Lemma byte_val_range b : 0 <= Gob.byte_val b < 256.
Proof. unfold Gob.byte_val. pose proof (Byte.to_N_bounded b). lia. Qed.

Lemma byte_val_to_byte v : Gob.byte_val (Gob.to_byte v) = v mod 256.
Proof.
  unfold Gob.byte_val, Gob.to_byte.
  pose proof (Z.mod_pos_bound v 256 ltac:(lia)) as Hv.
  destruct (Byte.of_N (Z.to_N (v mod 256))) as [b|] eqn:E.
  - apply Byte.to_of_N in E. rewrite E. lia.
  - apply Byte.of_N_None_iff in E. lia.
Qed.

Lemma length_be_bytes n x : length (Gob.be_bytes n x) = n.
Proof. induction n as [|k IH]; [done|]. cbn. by rewrite IH. Qed.

Lemma be_val_acc n : forall x acc,
  fold_left (fun a b => a * 256 + Gob.byte_val b) (Gob.be_bytes n x) acc =
  acc * 256 ^ Z.of_nat n + x mod 256 ^ Z.of_nat n.
Proof.
  induction n as [|k IH]; intros x acc.
  - cbn [Gob.be_bytes fold_left]. change (256 ^ Z.of_nat 0) with 1.
    rewrite Z.mod_1_r. lia.
  - cbn [Gob.be_bytes fold_left]. rewrite IH, byte_val_to_byte.
    replace (Z.of_nat (S k)) with (Z.of_nat k + 1) by lia.
    rewrite Z.pow_add_r by lia. change (256 ^ 1) with 256.
    assert (0 < 256 ^ Z.of_nat k) by (apply Z.pow_pos_nonneg; lia).
    rewrite (Z.rem_mul_r x (256 ^ Z.of_nat k) 256) by lia. lia.
Qed.

Lemma be_val_be_bytes n x :
  0 <= x < 256 ^ Z.of_nat n -> Gob.be_val (Gob.be_bytes n x) = x.
Proof.
  intros Hx. unfold Gob.be_val. rewrite be_val_acc.
  rewrite Z.mod_small by exact Hx. lia.
Qed.

Lemma byte_len_spec x :
  0 <= x < 2 ^ 64 ->
  (1 <= Gob.byte_len x <= 8)%nat /\ x < 256 ^ Z.of_nat (Gob.byte_len x).
Proof.
  intros Hx. unfold Gob.byte_len.
  repeat (match goal with |- context [?a <? ?b] => destruct (Z.ltb_spec a b) end);
    (split; [lia|]); cbn; lia.
Qed.

Lemma length_encodeUint x : 0 <= x < 2 ^ 64 -> (1 <= length (Gob.encodeUint x) <= 9)%nat.
Proof.
  intros Hx. unfold Gob.encodeUint. destruct (x <=? 127); [cbn; lia|].
  cbn [length]. rewrite length_be_bytes.
  pose proof (byte_len_spec x Hx). lia.
Qed.

Lemma decodeUint_encodeUint x rest :
  0 <= x < 2 ^ 64 ->
  Gob.decodeUint (Gob.encodeUint x ++ rest) = inr (x, rest).
Proof.
  intros Hx. unfold Gob.encodeUint.
  destruct (Z.leb_spec x 127) as [Hs|Hl].
  - cbn [app Gob.decodeUint]. rewrite byte_val_to_byte.
    rewrite Z.mod_small by lia.
    destruct (Z.leb_spec x 127); [done|lia].
  - destruct (byte_len_spec x Hx) as [Hn Hlt].
    set (n := Gob.byte_len x) in *.
    cbn [app Gob.decodeUint]. rewrite byte_val_to_byte.
    assert (Hmod : (- Z.of_nat n) mod 256 = 256 - Z.of_nat n).
    { symmetry. apply (Z.mod_unique _ _ (-1)); lia. }
    rewrite Hmod.
    destruct (Z.leb_spec (256 - Z.of_nat n) 127); [lia|].
    replace (256 - (256 - Z.of_nat n)) with (Z.of_nat n) by lia.
    destruct (Z.gtb_spec (Z.of_nat n) 8); [lia|].
    rewrite length_app, length_be_bytes.
    destruct (Z.ltb_spec (Z.of_nat (n + length rest)) (Z.of_nat n)); [lia|].
    rewrite Nat2Z.id.
    rewrite take_app_length' by (by rewrite length_be_bytes).
    rewrite drop_app_length' by (by rewrite length_be_bytes).
    by rewrite be_val_be_bytes by lia.
Qed.

Lemma recvMessage_message id value rest :
  Z.of_nat (length value) + 2 < Gob.tooBig -> id = Gob.tUint \/ id = Gob.tBytes ->
  Gob.recvMessage (Gob.message id value ++ rest) =
  inr (Gob.encodeInt id ++ Gob.encodeUint 0 ++ value, rest).
Proof.
  intros Hlen Hid. unfold Gob.message, Gob.recvMessage.
  set (body := Gob.encodeInt id ++ Gob.encodeUint 0 ++ value).
  assert (Hbody : Z.of_nat (length body) = Z.of_nat (length value) + 2).
  { unfold body. rewrite !length_app.
    assert (length (Gob.encodeInt id) = 1%nat) as -> by (by destruct Hid as [-> | ->]).
    assert (length (Gob.encodeUint 0) = 1%nat) as -> by done. lia. }
  unfold Gob.tooBig in Hlen.
  rewrite <- app_assoc, decodeUint_encodeUint by lia.
  cbn [mbind Gob.error_bind].
  destruct (Z.geb_spec (Z.of_nat (length body)) Gob.tooBig) as [Hge|_];
    [unfold Gob.tooBig in Hge; lia|].
  rewrite length_app.
  destruct (Z.ltb_spec (Z.of_nat (length body + length rest)) (Z.of_nat (length body))); [lia|].
  rewrite Nat2Z.id. by rewrite take_app_length, drop_app_length.
Qed.

Lemma singleton_uint value :
  Gob.singleton Gob.tUint (Gob.encodeInt Gob.tUint ++ Gob.encodeUint 0 ++ value) = inr value.
Proof. reflexivity. Qed.

Lemma singleton_bytes value :
  Gob.singleton Gob.tBytes (Gob.encodeInt Gob.tBytes ++ Gob.encodeUint 0 ++ value) = inr value.
Proof. reflexivity. Qed.

Lemma Decode_uint_message bits v rest :
  0 <= bits <= 64 -> 0 <= v < 2 ^ bits ->
  Gob.Decode_uint bits (Gob.message Gob.tUint (Gob.encodeUint v) ++ rest) = inr (v, rest).
Proof.
  intros Hb Hv.
  assert (Hv64 : 0 <= v < 2 ^ 64).
  { split; [lia|]. eapply Z.lt_le_trans; [apply Hv|]. apply Z.pow_le_mono_r; lia. }
  pose proof (length_encodeUint v Hv64) as Hl.
  unfold Gob.Decode_uint.
  rewrite recvMessage_message; [|unfold Gob.tooBig; lia|by left].
  cbn [mbind Gob.error_bind]. rewrite singleton_uint.
  cbn [mbind Gob.error_bind].
  rewrite <- (app_nil_r (Gob.encodeUint v)), decodeUint_encodeUint by done.
  cbn [mbind Gob.error_bind].
  destruct (Z.ltb_spec (2 ^ bits - 1) v); [lia|done].
Qed.

Lemma map_byte_val_to_byte (v : list Z) :
  Forall (fun a => 0 <= a < 2 ^ 8) v -> map Gob.byte_val (map Gob.to_byte v) = v.
Proof.
  induction 1 as [|a v Ha _ IH]; [done|].
  cbn [map]. rewrite IH, byte_val_to_byte. rewrite Z.mod_small by lia. done.
Qed.

Lemma Decode_bytes_message (v : list Z) rest :
  Forall (fun a => 0 <= a < 2 ^ 8) v -> Z.of_nat (length v) <= 2 ^ 32 ->
  Gob.Decode_bytes
    (Gob.message Gob.tBytes (Gob.encodeUint (Z.of_nat (length v)) ++ map Gob.to_byte v) ++ rest)
  = inr (v, rest).
Proof.
  intros Hv Hlen.
  assert (Hl64 : 0 <= Z.of_nat (length v) < 2 ^ 64) by lia.
  pose proof (length_encodeUint _ Hl64) as Hl.
  unfold Gob.Decode_bytes.
  rewrite recvMessage_message;
    [|rewrite length_app, length_map; unfold Gob.tooBig; lia|by right].
  cbn [mbind Gob.error_bind]. rewrite singleton_bytes.
  cbn [mbind Gob.error_bind]. rewrite decodeUint_encodeUint by done.
  cbn [mbind Gob.error_bind]. rewrite length_map.
  destruct (Z.geb_spec (Z.of_nat (length v)) (2 ^ 63)); [lia|].
  destruct (Z.ltb_spec (Z.of_nat (length v)) (Z.of_nat (length v))); [lia|].
  destruct (Z.leb_spec Gob.tooBig (Z.of_nat (length v))) as [Hbig|_];
    [unfold Gob.tooBig in Hbig; lia|].
  cbn [orb]. rewrite Nat2Z.id.
  rewrite take_ge by (by rewrite length_map).
  by rewrite map_byte_val_to_byte.
Qed.

(** ** Snapshots *)

(** The wire image of a state: its five messages in field order. *)
Lemma GobEncode_messages h :
  GobEncode h =
  inr (Gob.message Gob.tBytes
         (Gob.encodeUint (Z.of_nat (length (reg h))) ++ map Gob.to_byte (reg h))
       ++ Gob.message Gob.tUint (Gob.encodeUint (m h))
       ++ Gob.message Gob.tUint (Gob.encodeUint (p h))
       ++ Gob.message Gob.tUint (Gob.encodeUint (c h))
       ++ Gob.message Gob.tUint (Gob.encodeUint (z h))).
Proof.
  unfold GobEncode, Gob.Encode_bytes, Gob.Encode_uint.
  cbn [app]. by rewrite <- !app_assoc.
Qed.

Lemma snapshot_roundtrip (E : HyperLogLog) :
  representable E ->
  exists b, GobEncode E = inr b /\ forall h0, GobDecode h0 b = (E, None).
Proof.
  intros [Hreg Hlen Hm Hp Hc Hz].
  eexists. split; [apply GobEncode_messages|]. intros h0.
  unfold GobDecode.
  rewrite Decode_bytes_message by done.
  rewrite Decode_uint_message by (done || lia).
  rewrite Decode_uint_message by (done || lia).
  rewrite Decode_uint_message by (done || lia).
  rewrite <- (app_nil_r (Gob.message Gob.tUint (Gob.encodeUint (z E)))).
  rewrite Decode_uint_message by (done || lia).
  by destruct E.
Qed.

(** C5: a state whose fields hold values of their Go types is encoded as
    five messages in the order [registers], [m], [precision],
    [cached_estimate], [zero_register_count], and decoding that encoding
    into any receiver succeeds and yields exactly that state. *)
Theorem GobDecode_GobEncode (E h0 : HyperLogLog) :
  representable E ->
  exists b,
    GobEncode E = inr b /\
    b = Gob.message Gob.tBytes
          (Gob.encodeUint (Z.of_nat (length (reg E))) ++ map Gob.to_byte (reg E))
        ++ Gob.message Gob.tUint (Gob.encodeUint (m E))
        ++ Gob.message Gob.tUint (Gob.encodeUint (p E))
        ++ Gob.message Gob.tUint (Gob.encodeUint (c E))
        ++ Gob.message Gob.tUint (Gob.encodeUint (z E)) /\
    GobDecode h0 b = (E, None).
Proof.
  intros HE.
  destruct (snapshot_roundtrip E HE) as (b & Hb & Hdec).
  exists b. split; [done|]. split; [|apply Hdec].
  rewrite GobEncode_messages in Hb. by inversion Hb.
Qed.

(** The snapshot method of the file is [GobDecode_with] on the model of
    the gob stream. *)
Lemma GobDecode_stream_decoder h b :
  GobDecode h b = GobDecode_with stream_decoder h b.
Proof. reflexivity. Qed.

(** C3: whatever decoder stands for [encoding/gob], [GobDecode] decodes the
    fields in the order [registers], [m], [precision], [cached_estimate],
    [zero_register_count] and stops at the first that fails.  When the
    first one fails the receiver is unchanged; when a later one fails the
    fields decoded before it hold the values the decoder returned for them
    and the failing field and those after it are unchanged; when none
    fails all five fields hold the decoded values and there is no
    error. *)
Theorem GobDecode_field_by_field (D : Decoder) (h : HyperLogLog) (b : list byte) :
  (exists e,
     Decode_bytes D (NewDecoder D b) = inl e /\
     GobDecode_with D h b = (h, Some e))
  \/
  exists r d1,
    Decode_bytes D (NewDecoder D b) = inr (r, d1) /\
    ((exists e,
        Decode_uint D 32 d1 = inl e /\
        GobDecode_with D h b =
          ({| reg := r; m := m h; p := p h; c := c h; z := z h |}, Some e))
     \/
     exists vm d2,
       Decode_uint D 32 d1 = inr (vm, d2) /\
       ((exists e,
           Decode_uint D 8 d2 = inl e /\
           GobDecode_with D h b =
             ({| reg := r; m := vm; p := p h; c := c h; z := z h |}, Some e))
        \/
        exists vp d3,
          Decode_uint D 8 d2 = inr (vp, d3) /\
          ((exists e,
              Decode_uint D 64 d3 = inl e /\
              GobDecode_with D h b =
                ({| reg := r; m := vm; p := vp; c := c h; z := z h |}, Some e))
           \/
           exists vc d4,
             Decode_uint D 64 d3 = inr (vc, d4) /\
             ((exists e,
                 Decode_uint D 16 d4 = inl e /\
                 GobDecode_with D h b =
                   ({| reg := r; m := vm; p := vp; c := vc; z := z h |}, Some e))
              \/
              exists vz d5,
                Decode_uint D 16 d4 = inr (vz, d5) /\
                GobDecode_with D h b =
                  ({| reg := r; m := vm; p := vp; c := vc; z := vz |}, None))))).
Proof.
  unfold GobDecode_with.
  destruct (Decode_bytes D (NewDecoder D b)) as [e0|[r d1]]; [left; eauto|].
  right. exists r, d1. split; [done|].
  destruct (Decode_uint D 32 d1) as [e1|[vm d2]]; [left; eauto|].
  right. exists vm, d2. split; [done|].
  destruct (Decode_uint D 8 d2) as [e2|[vp d3]]; [left; eauto|].
  right. exists vp, d3. split; [done|].
  destruct (Decode_uint D 64 d3) as [e3|[vc d4]]; [left; eauto|].
  right. exists vc, d4. split; [done|].
  destruct (Decode_uint D 16 d4) as [e4|[vz d5]]; [left; eauto|].
  right. exists vz, d5. done.
Qed.

(** C3, as stated, fails: a stream that ends after the message of the
    registers makes [GobDecode] fail with the registers replaced. *)
Lemma GobDecode_not_atomic :
  GobDecode fresh4 truncated_snapshot = (set_reg fresh4 [1; 2], Some decodeError) /\
  reg (set_reg fresh4 [1; 2]) <> reg fresh4.
Proof. split; [by vm_compute|]. cbn. discriminate. Qed.

Lemma inconsistent_state_representable : representable inconsistent_state.
Proof.
  constructor; cbn; try lia.
  repeat constructor; lia.
Qed.

(** C10: [GobDecode] validates nothing: the encoding of a state with
    precision 3, two registers for [m = 16] and a zero count of 7 decodes
    without error into any receiver. *)
Theorem GobDecode_no_validation :
  exists b,
    GobEncode inconsistent_state = inr b /\
    forall h, exists h',
      GobDecode h b = (h', None) /\
      ~ (4 <= p h' <= 16) /\
      Z.of_nat (length (reg h')) <> m h' /\
      z h' <> countZeros (reg h').
Proof.
  destruct (snapshot_roundtrip inconsistent_state inconsistent_state_representable)
    as (b & Hb & Hdec).
  exists b. split; [done|]. intros h. exists inconsistent_state.
  split; [apply Hdec|]. cbn. lia.
Qed.

(** ** The estimate *)

Section EstimateFacts.

Variable Log : float -> float.
Variable oor : float -> Z.

(** The three regimes of [doCount] as an ordered list of rules, with the
    thresholds the source computes: [2.5 * m] and the integer quotient
    of [two32] by 30. *)
Lemma doCount_first_match h :
  let raw := calculateEstimate (reg h) in
  let small := (raw <=? F64.of_Z (m h) * 2.5)%float in
  let zeros := uint32 (z h) in
  doCount Log oor h =
  first_match
    [ (small && (0 <? zeros), F64.to_uint64 oor (linearCounting Log (m h) zeros));
      (small && (zeros =? 0), F64.to_uint64 oor raw);
      ((raw <? F64.of_Z 143165576)%float, F64.to_uint64 oor raw) ]
    (F64.to_uint64 oor (F64.of_Z (- two32) * Log (1 - raw / F64.of_Z two32))%float).
Proof.
  intros raw small zeros. unfold doCount. fold raw. fold small. fold zeros.
  change (two32 / 30) with 143165576.
  pose proof (wrap_range 32 (z h) ltac:(lia)) as Hz. fold (uint32 (z h)) in Hz. fold zeros in Hz.
  cbn [first_match]. destruct small; cbn [andb]; [|done].
  destruct (Z.eqb_spec zeros 0) as [->|Hne]; [done|].
  cbn [negb]. destruct (Z.ltb_spec 0 zeros); [done|lia].
Qed.

(** C1: the sixteen registers [gap_registers] have a raw estimate of
    [4803839596004455 / 2^25 = 143165576.338...], above [2.5 * 16], at
    least the integer [two32/30 = 143165576] and below [2^32/30]; for them
    [doCount] applies the large-range correction instead of returning the
    raw estimate.  The state is the decoding of a snapshot, and [Merge]
    with a fresh estimator caches that estimate. *)
Theorem doCount_integer_threshold :
  let raw := calculateEstimate gap_registers in
  F64.exact raw = Some (4803839596004455, 25) /\
  two32 / 30 = 143165576 /\
  143165576 * 2 ^ 25 <= 4803839596004455 /\
  30 * 4803839596004455 < 2 ^ 32 * 2 ^ 25 /\
  (raw <=? F64.of_Z (m gap_state) * 2.5)%float = false /\
  (raw <? F64.of_Z two32 / F64.of_Z 30)%float = true /\
  (raw <? F64.of_Z (two32 / 30))%float = false /\
  doCount Log oor gap_state =
    F64.to_uint64 oor (F64.of_Z (- two32) * Log (1 - raw / F64.of_Z two32))%float /\
  (exists b, GobEncode gap_state = inr b /\
     GobDecode fresh4 b = (gap_state, None)) /\
  Merge Log oor gap_state fresh4 =
    Some (set_c gap_state (doCount Log oor gap_state), None).
Proof.
  intros raw.
  assert (Hle : (raw <=? F64.of_Z (m gap_state) * 2.5)%float = false) by (by vm_compute).
  assert (Hlt : (raw <? F64.of_Z (two32 / 30))%float = false) by (by vm_compute).
  split; [by vm_compute|]. split; [by vm_compute|].
  split; [lia|]. split; [lia|]. split; [exact Hle|].
  split; [by vm_compute|]. split; [exact Hlt|].
  split.
  { unfold doCount. change (calculateEstimate (reg gap_state)) with raw.
    by rewrite Hle, Hlt. }
  split.
  { assert (Hrep : representable gap_state).
    { constructor; cbn; try lia. unfold gap_registers. repeat constructor; lia. }
    destruct (snapshot_roundtrip gap_state Hrep) as (b & Hb & Hdec).
    exists b. split; [done|apply Hdec]. }
  reflexivity.
Qed.

End EstimateFacts.

(** On the run platform the cached estimate of [gap_state] is 145606055,
    the raw estimate truncated is 143165576. *)
Example doCount_gap_state_run :
  doCount Run.Log Run.oor gap_state = 145606055 /\
  F64.to_uint64 Run.oor (calculateEstimate gap_registers) = 143165576.
Proof. split; by vm_compute. Qed.

(** ** The statements at sample inputs *)

Lemma fresh4_wf : wf fresh4.
Proof. constructor; cbn; [lia|done|done]. Defined.

Lemma added4_wf : wf added4.
Proof. constructor; cbn; [lia|done|done]. Defined.

Lemma Add_computes_witness :
  wf fresh4 /\ 0 <= 2 ^ 31 < 2 ^ 32 /\
  let i := 2 ^ 31 / 2 ^ (32 - p fresh4) in
  let w := Z.lor ((2 ^ 31 * 2 ^ p fresh4) mod 2 ^ 32) (2 ^ (p fresh4 - 1)) in
  let rank := clz32 w + 1 in
  exists r,
    0 <= i < m fresh4 /\ reg fresh4 !! Z.to_nat i = Some r /\
    rank = 32 - Z.log2 w /\ 1 <= rank <= 32 - p fresh4 + 1 /\
    Add Run.Log Run.oor fresh4 (2 ^ 31) =
      Some (if rank >? r then
              let h' := {| reg := <[Z.to_nat i := rank]> (reg fresh4);
                           m := m fresh4; p := p fresh4; c := c fresh4;
                           z := if r =? 0 then uint16 (z fresh4 - 1) else z fresh4 |} in
              set_c h' (doCount Run.Log Run.oor h')
            else fresh4).
Proof.
  split; [exact fresh4_wf|]. split; [lia|].
  apply (Add_computes Run.Log Run.oor fresh4 (2 ^ 31) fresh4_wf). lia.
Defined.

Lemma Add_idempotent_witness :
  wf fresh4 /\ 0 <= 2 ^ 31 < 2 ^ 32 /\
  exists h1,
    Add Run.Log Run.oor fresh4 (2 ^ 31) = Some h1 /\
    Add Run.Log Run.oor h1 (2 ^ 31) = Some h1 /\
    forall n, exists hn,
      Add_repeat Run.Log Run.oor (S n) fresh4 (2 ^ 31) = Some hn /\ hn = h1 /\
      Count hn = Count h1.
Proof.
  split; [exact fresh4_wf|]. split; [lia|].
  apply (Add_idempotent Run.Log Run.oor fresh4 (2 ^ 31) fresh4_wf). lia.
Defined.

Lemma Merge_comm_assoc_witness :
  wf fresh4 /\ wf added4 /\ p fresh4 = p added4 /\
  exists AB BA BC AB_C A_BC,
    Merge Run.Log Run.oor fresh4 added4 = Some (AB, None) /\
    Merge Run.Log Run.oor added4 fresh4 = Some (BA, None) /\
    reg AB = reg BA /\ Count AB = Count BA /\ AB = BA /\
    Merge Run.Log Run.oor AB fresh4 = Some (AB_C, None) /\
    Merge Run.Log Run.oor added4 fresh4 = Some (BC, None) /\
    Merge Run.Log Run.oor fresh4 BC = Some (A_BC, None) /\
    reg AB_C = reg A_BC /\ AB_C = A_BC.
Proof.
  split; [exact fresh4_wf|]. split; [exact added4_wf|]. split; [reflexivity|].
  apply (Merge_comm_assoc Run.Log Run.oor fresh4 added4 fresh4
           fresh4_wf added4_wf fresh4_wf); reflexivity.
Defined.

Lemma Merge_precision_mismatch_witness :
  p fresh4 <> p fresh5 /\
  exists h', Merge Run.Log Run.oor fresh4 fresh5 =
               Some (h', Some (errorString "precisions must be equal")) /\
    h' = fresh4 /\ reg h' = reg fresh4 /\ z h' = z fresh4 /\ c h' = c fresh4 /\
    Count h' = Count fresh4.
Proof.
  assert (Hne : p fresh4 <> p fresh5) by (cbn; discriminate).
  split; [exact Hne|].
  apply (Merge_precision_mismatch Run.Log Run.oor fresh4 fresh5 Hne).
Defined.

Lemma added4_representable : representable added4.
Proof. constructor; cbn; try lia. repeat constructor; lia. Defined.

Lemma GobDecode_GobEncode_witness :
  representable added4 /\
  exists b,
    GobEncode added4 = inr b /\
    b = Gob.message Gob.tBytes
          (Gob.encodeUint (Z.of_nat (length (reg added4))) ++ map Gob.to_byte (reg added4))
        ++ Gob.message Gob.tUint (Gob.encodeUint (m added4))
        ++ Gob.message Gob.tUint (Gob.encodeUint (p added4))
        ++ Gob.message Gob.tUint (Gob.encodeUint (c added4))
        ++ Gob.message Gob.tUint (Gob.encodeUint (z added4)) /\
    GobDecode fresh5 b = (added4, None).
Proof.
  split; [exact added4_representable|].
  apply (GobDecode_GobEncode added4 fresh5 added4_representable).
Defined.

(** * Further properties *)

(** ** Construction and reset *)

Lemma New_inr (precision : Z) (h : HyperLogLog) :
  New precision = inr h ->
  4 <= precision <= 16 /\ p h = precision /\ m h = 2 ^ precision /\
  reg h = replicate (Z.to_nat (2 ^ precision)) 0 /\
  c h = 0 /\ z h = 2 ^ precision mod 2 ^ 16.
Proof.
  intros H. assert (Hp : 4 <= precision <= 16).
  { unfold New in H. destruct (precision >? 16) eqn:E1; [done|].
    destruct (precision <? 4) eqn:E2; [done|]. lia. }
  rewrite New_ok in H by exact Hp. by inversion H.
Qed.

(** [New] returns its error exactly for a precision below 4 or above 16,
    and otherwise an estimator of that precision with [2^precision]
    registers, all zero, a [Count()] of 0 and the register count reduced
    to 16 bits as its zero count. *)
Theorem New_outcome (precision : Z) :
  (New precision = inl (errorString "precision must be between 4 and 16")
   <-> precision < 4 \/ 16 < precision) /\
  ((exists h, New precision = inr h) <-> 4 <= precision <= 16) /\
  (forall h, New precision = inr h ->
     p h = precision /\ m h = 2 ^ precision /\
     reg h = replicate (Z.to_nat (2 ^ precision)) 0 /\
     Count h = 0 /\ z h = 2 ^ precision mod 2 ^ 16).
Proof.
  destruct (Z.lt_ge_cases precision 4) as [Hlo|Hlo];
    [|destruct (Z.lt_ge_cases 16 precision) as [Hhi|Hhi]].
  - rewrite New_error by lia.
    split; [split; [lia|done]|]. split; [|done].
    split; [by intros [h Hh]|lia].
  - rewrite New_error by lia.
    split; [split; [lia|done]|]. split; [|done].
    split; [by intros [h Hh]|lia].
  - rewrite New_ok by lia.
    split; [split; [done|lia]|]. split; [split; [lia|eauto]|].
    intros h [= <-]. done.
Qed.

(** [Clear] puts an estimator of the data model back into the state in
    which [New] returns one of its precision. *)
Theorem Clear_is_New (h : HyperLogLog) :
  wf h -> New (p h) = inr (Clear h).
Proof.
  intros [Hp Hm Hl]. rewrite New_ok by exact Hp.
  unfold Clear, set_c, set_z, set_reg. cbn [reg m p c z].
  by rewrite Hm.
Qed.

(** ** Index and rank *)

Lemma index_of_range prec x :
  4 <= prec <= 16 -> 0 <= x < 2 ^ 32 ->
  (index_of prec x < Z.to_nat (2 ^ prec))%nat /\
  Z.of_nat (index_of prec x) = x / 2 ^ (32 - prec).
Proof.
  intros Hp Hx. unfold index_of.
  rewrite (uint8_small (32 - prec)) by lia. rewrite eb32_top by lia.
  pose proof (top_bits_range x prec Hx ltac:(lia)). lia.
Qed.

Lemma rank_of_log2 prec x :
  4 <= prec <= 16 -> 0 <= x < 2 ^ 32 ->
  rank_of prec x = 32 - Z.log2 (Z.lor ((x * 2 ^ prec) mod 2 ^ 32) (2 ^ (prec - 1))) /\
  1 <= rank_of prec x <= 32 - prec + 1.
Proof.
  intros Hp Hx. unfold rank_of.
  rewrite (uint8_small (prec - 1)) by lia.
  rewrite shl_mul by lia. rewrite shl_one by lia.
  destruct (guarded_word x prec ltac:(lia) ltac:(lia)) as [Hw Hlog].
  rewrite clz32_log2 by exact Hw.
  rewrite uint8_small by lia. lia.
Qed.

(** The rank that [Add] records is one more than the number of leading
    zeros of the [32 - p] bits of the hash below the index bits; when all
    of them are zero the guard bit stops the count at [32 - p + 1]. *)
Theorem rank_of_remaining_bits (prec x : Z) :
  4 <= prec <= 16 -> 0 <= x < 2 ^ 32 ->
  let rest := x mod 2 ^ (32 - prec) in
  rank_of prec x =
    if rest =? 0 then 32 - prec + 1 else (32 - prec - 1 - Z.log2 rest) + 1.
Proof.
  intros Hp Hx rest.
  destruct (rank_of_log2 prec x Hp Hx) as [-> _].
  assert (Hpow : 0 < 2 ^ prec) by (apply Z.pow_pos_nonneg; lia).
  assert (Hrest : 0 <= rest < 2 ^ (32 - prec)).
  { apply Z.mod_pos_bound. apply Z.pow_pos_nonneg; lia. }
  assert (Hshift : (x * 2 ^ prec) mod 2 ^ 32 = rest * 2 ^ prec).
  { replace (2 ^ 32) with (2 ^ (32 - prec) * 2 ^ prec).
    - rewrite Z.mul_mod_distr_r; [done| |lia]. apply Z.pow_nonzero; lia.
    - rewrite <- Z.pow_add_r by lia. f_equal. lia. }
  rewrite Hshift. rewrite Z.log2_lor; [|lia|apply Z.pow_nonneg; lia].
  rewrite Z.log2_pow2 by lia.
  destruct (Z.eqb_spec rest 0) as [->|Hne].
  - rewrite Z.mul_0_l. change (Z.log2 0) with 0. lia.
  - rewrite Z.log2_mul_pow2 by lia.
    pose proof (Z.log2_nonneg rest). lia.
Qed.

(** ** Add, register by register *)

Lemma zip_max_zeros (l : list Z) n :
  Forall (fun v => 0 <= v) l -> (length l <= n)%nat ->
  zip_with Z.max l (replicate n 0) = l.
Proof.
  intros Hl. revert n. induction Hl as [|a l Ha _ IH]; intros n Hn; [done|].
  destruct n as [|n]; [cbn in Hn; lia|].
  cbn [replicate zip_with]. rewrite IH by (cbn in Hn; lia).
  by rewrite Z.max_l by lia.
Qed.

Lemma zip_max_single (l : list Z) n i r v :
  Forall (fun a => 0 <= a) l -> (length l <= n)%nat -> l !! i = Some r ->
  zip_with Z.max l (<[i := v]> (replicate n 0)) = <[i := Z.max r v]> l.
Proof.
  intros Hl. revert n i. induction Hl as [|a l Ha Hl IH]; intros n i Hn Hi; [done|].
  destruct n as [|n]; [cbn in Hn; lia|]. cbn in Hn.
  destruct i as [|i].
  - inversion Hi; subst. cbn. by rewrite zip_max_zeros by (done || lia).
  - cbn in Hi. cbn [replicate]. change (<[S i:=v]> (0 :: replicate n 0))
      with (0 :: <[i:=v]> (replicate n 0)).
    cbn [zip_with]. rewrite (IH n i) by (done || lia).
    by rewrite Z.max_l by lia.
Qed.

Lemma reg_sum_insert (l : list Z) i r v :
  l !! i = Some r -> reg_sum (<[i := v]> l) = reg_sum l - r + v.
Proof.
  revert i. induction l as [|a l IH]; intros i Hi; [done|].
  destruct i as [|i].
  - inversion Hi; subst. cbn. lia.
  - cbn in Hi. change (<[S i:=v]> (a :: l)) with (a :: <[i:=v]> l).
    cbn [reg_sum foldr]. fold (reg_sum (<[i:=v]> l)). fold (reg_sum l).
    rewrite (IH _ Hi). lia.
Qed.

Section AddRegisters.

Variable Log : float -> float.
Variable oor : float -> Z.

Lemma Add_unfold h x :
  Add Log oor h x =
  match reg h !! index_of (p h) x with
  | None => None
  | Some r =>
      if rank_of (p h) x >? r then
        let h1 := if r =? 0 then set_z h (uint16 (z h - 1)) else h in
        let h2 := set_reg h1 (<[index_of (p h) x := rank_of (p h) x]> (reg h1)) in
        Some (set_c h2 (doCount Log oor h2))
      else Some h
  end.
Proof. reflexivity. Qed.

(** [Add] panics exactly when the estimator has no register at the index
    of the hash; an estimator of the data model has one for every 32-bit
    hash. *)
Theorem Add_panics_iff (h : HyperLogLog) (x : Z) :
  (Add Log oor h x = None <-> (length (reg h) <= index_of (p h) x)%nat) /\
  (wf h /\ 0 <= x < 2 ^ 32 -> Add Log oor h x <> None).
Proof.
  assert (Hiff : Add Log oor h x = None <-> (length (reg h) <= index_of (p h) x)%nat).
  { rewrite Add_unfold. rewrite <- lookup_ge_None.
    destruct (reg h !! index_of (p h) x) as [r|]; [|done].
    destruct (_ >? r); split; discriminate. }
  split; [exact Hiff|].
  intros [[Hp Hm Hl] Hx]. rewrite Hiff.
  destruct (index_of_range (p h) x Hp Hx) as [Hi _].
  rewrite Hl, Hm. lia.
Qed.

(** [Add] touches one register only, and never lowers it: the register at
    the index of the hash becomes the larger of its value and the rank,
    and every other register, the precision and [m] stay as they were. *)
Theorem Add_one_register (h : HyperLogLog) (x : Z) (h' : HyperLogLog) :
  Add Log oor h x = Some h' ->
  p h' = p h /\ m h' = m h /\ length (reg h') = length (reg h) /\
  (exists r, reg h !! index_of (p h) x = Some r /\
             reg h' !! index_of (p h) x = Some (Z.max r (rank_of (p h) x))) /\
  (forall j, j <> index_of (p h) x -> reg h' !! j = reg h !! j).
Proof.
  rewrite Add_unfold.
  destruct (reg h !! index_of (p h) x) as [r|] eqn:Hr; [|discriminate].
  pose proof (lookup_lt_Some _ _ _ Hr) as Hlt.
  destruct (Z.gtb_spec (rank_of (p h) x) r) as [Hgt|Hle].
  - intros [= <-].
    assert (Hreg : reg (if r =? 0 then set_z h (uint16 (z h - 1)) else h) = reg h)
      by (by destruct (r =? 0)).
    cbn [set_c set_reg reg m p]. rewrite Hreg.
    split; [by destruct (r =? 0)|]. split; [by destruct (r =? 0)|].
    split; [by rewrite length_insert|]. split.
    + exists r. split; [done|]. rewrite list_lookup_insert_eq by done.
      by rewrite Z.max_r by lia.
    + intros j Hj. by rewrite list_lookup_insert_ne.
  - intros [= <-]. repeat split.
    exists r. split; [done|]. by rewrite Z.max_l by lia.
Qed.

End AddRegisters.

(** ** Streams of hashes *)

Lemma length_single prec x : length (single prec x) = Z.to_nat (2 ^ prec).
Proof. unfold single. by rewrite length_insert, length_replicate. Qed.

Lemma single_nonneg prec x :
  4 <= prec <= 16 -> 0 <= x < 2 ^ 32 -> Forall (fun v => 0 <= v) (single prec x).
Proof.
  intros Hp Hx. unfold single.
  destruct (rank_of_log2 prec x Hp Hx) as [_ Hr].
  apply Forall_insert; [|lia]. apply Forall_replicate. lia.
Qed.

Lemma length_sketch prec xs : length (sketch prec xs) = Z.to_nat (2 ^ prec).
Proof.
  induction xs as [|x xs IH]; cbn [sketch foldr].
  - by rewrite length_replicate.
  - fold (sketch prec xs). rewrite length_zip_with, length_single, IH. lia.
Qed.

Lemma sketch_nonneg prec xs :
  4 <= prec <= 16 -> Forall (fun x => 0 <= x < 2 ^ 32) xs ->
  Forall (fun v => 0 <= v) (sketch prec xs).
Proof.
  intros Hp Hxs. induction Hxs as [|x xs Hx _ IH]; cbn [sketch foldr].
  - apply Forall_replicate. lia.
  - fold (sketch prec xs). apply Forall_zip_max; [by apply single_nonneg|done].
Qed.

Lemma zip_max_idemp (a : list Z) : zip_with Z.max a a = a.
Proof. induction a as [|x a IH]; [done|]. cbn. by rewrite Z.max_id, IH. Qed.

Section StreamFacts.

Variable Log : float -> float.
Variable oor : float -> Z.

(** Two estimators whose cached values agree with their registers are
    equal as soon as their registers, [m] and precision are. *)
Lemma coherent_ext h1 h2 :
  coherent Log oor h1 -> coherent Log oor h2 ->
  reg h1 = reg h2 -> m h1 = m h2 -> p h1 = p h2 -> h1 = h2.
Proof.
  intros [Hz1 Hc1] [Hz2 Hc2] Hr Hm Hp.
  assert (Hz : z h1 = z h2).
  { unfold zeros_counted_mod in *. by rewrite Hz1, Hz2, Hr. }
  assert (Hc : c h1 = c h2).
  { rewrite Hc1, Hc2. by apply doCount_ext. }
  destruct h1, h2; cbn in *; by subst.
Qed.

(** One [Add] is the merge with the registers of its hash alone. *)
Lemma Add_registers h x :
  consistent h -> 0 <= x < 2 ^ 32 ->
  exists h', Add Log oor h x = Some h' /\ consistent h' /\
    p h' = p h /\ m h' = m h /\
    reg h' = zip_with Z.max (reg h) (single (p h) x) /\
    (h' = h \/ (coherent Log oor h' /\ reg_sum (reg h) < reg_sum (reg h'))).
Proof.
  intros (Hwf & Hnn & Hz) Hx.
  destruct (Add_total Log oor h x Hwf Hx) as [h' Hadd].
  pose proof (Add_wf _ _ _ _ _ Hwf Hadd) as Hwf'.
  pose proof (Add_zeros_counted_mod _ _ _ _ _ Hz Hadd) as Hz'.
  destruct (Add_shape _ _ _ _ _ Hadd) as (Hp' & Hm' & Hl').
  destruct Hwf as [Hp Hm Hl].
  destruct (rank_of_log2 (p h) x Hp Hx) as [_ Hrank].
  exists h'. split; [done|].
  revert Hadd. rewrite Add_unfold.
  destruct (reg h !! index_of (p h) x) as [r|] eqn:Hr; [|discriminate].
  pose proof (lookup_lt_Some _ _ _ Hr) as Hlt.
  assert (Hsingle : zip_with Z.max (reg h) (single (p h) x)
                    = <[index_of (p h) x := Z.max r (rank_of (p h) x)]> (reg h)).
  { unfold single. apply zip_max_single; [done| |done]. rewrite Hl, Hm. lia. }
  destruct (Z.gtb_spec (rank_of (p h) x) r) as [Hgt|Hle]; intros [= Heq].
  - assert (Hreg : reg h' = <[index_of (p h) x := rank_of (p h) x]> (reg h)).
    { rewrite <- Heq. by destruct (r =? 0). }
    assert (Hnn' : Forall (fun v => 0 <= v) (reg h')).
    { rewrite Hreg. apply Forall_insert; [done|lia]. }
    split; [done|]. split; [done|]. split; [done|].
    split; [by rewrite Hsingle, Hreg, Z.max_r by lia|].
    right. split; [split; [done|]|].
    + rewrite <- Heq. cbn [set_c c]. by apply doCount_ext.
    + rewrite Hreg, (reg_sum_insert _ _ r) by done. lia.
  - subst h'. split; [done|]. split; [done|]. split; [done|].
    split; [|by left].
    rewrite Hsingle, Z.max_l by lia. by rewrite list_insert_id.
Qed.

Lemma Add_all_app xs ys h :
  Add_all Log oor (xs ++ ys) h =
  match Add_all Log oor xs h with
  | None => None
  | Some h' => Add_all Log oor ys h'
  end.
Proof.
  revert h. induction xs as [|x xs IH]; intros h; [done|].
  cbn [app Add_all]. destruct (Add Log oor h x); [apply IH|done].
Qed.

(** A stream of [Add]s is the merge with the registers specified for the
    stream; either nothing changed, or both cached values are those of the
    final registers. *)
Lemma Add_all_registers xs : forall h,
  consistent h -> Forall (fun x => 0 <= x < 2 ^ 32) xs ->
  exists h', Add_all Log oor xs h = Some h' /\ consistent h' /\
    p h' = p h /\ m h' = m h /\
    reg h' = zip_with Z.max (reg h) (sketch (p h) xs) /\
    (h' = h \/ (coherent Log oor h' /\ reg_sum (reg h) < reg_sum (reg h'))).
Proof.
  induction xs as [|x xs IH]; intros h Hh Hxs.
  - exists h. destruct Hh as (Hwf & Hnn & Hz). destruct Hwf as [Hp Hm Hl].
    split; [done|]. split; [done|]. split; [done|]. split; [done|].
    split; [|by left].
    cbn [sketch foldr]. rewrite zip_max_zeros; [done|done|]. rewrite Hl, Hm. lia.
  - inversion Hxs as [|? ? Hx Hxs']; subst.
    destruct (Add_registers h x Hh Hx) as (h1 & Hadd & Hh1 & Hp1 & Hm1 & Hr1 & Hc1).
    destruct (IH h1 Hh1 Hxs') as (h' & Hall & Hh' & Hp' & Hm' & Hr' & Hc').
    exists h'. cbn [Add_all]. rewrite Hadd.
    split; [done|]. split; [done|]. split; [congruence|]. split; [congruence|].
    split.
    + rewrite Hr', Hr1, Hp1. cbn [sketch foldr]. fold (sketch (p h) xs).
      by rewrite zip_max_assoc.
    + destruct Hc1 as [->|[Hcoh1 Hs1]]; [done|].
      destruct Hc' as [->|[Hcoh' Hs']]; right; [done|]. split; [done|lia].
Qed.

End StreamFacts.

Lemma max_rank_nonneg prec j xs : 0 <= max_rank prec j xs.
Proof.
  induction xs as [|x xs IH]; cbn [max_rank]; [lia|].
  destruct (Nat.eqb _ _); lia.
Qed.

Lemma max_rank_upper prec j xs x :
  x ∈ xs -> index_of prec x = j -> rank_of prec x <= max_rank prec j xs.
Proof.
  intros Hin. induction Hin as [x xs|x y xs _ IH]; intros Hj; cbn [max_rank].
  - subst j. rewrite Nat.eqb_refl. lia.
  - specialize (IH Hj). destruct (Nat.eqb _ _); lia.
Qed.

Lemma max_rank_attained prec j xs :
  max_rank prec j xs = 0 \/
  exists x, x ∈ xs /\ index_of prec x = j /\ rank_of prec x = max_rank prec j xs.
Proof.
  induction xs as [|x xs IH]; cbn [max_rank]; [by left|].
  destruct (Nat.eqb_spec (index_of prec x) j) as [Heq|Hne].
  - destruct (Z.max_spec (rank_of prec x) (max_rank prec j xs)) as [[_ ->]|[_ ->]].
    + destruct IH as [IH|(y & Hy & Hj & Hr)]; [by left|].
      right. exists y. split; [by right|done].
    + right. exists x. split; [by left|done].
  - destruct IH as [IH|(y & Hy & Hj & Hr)]; [by left|].
    right. exists y. split; [by right|done].
Qed.

Lemma max_rank_same_hashes prec j xs ys :
  (forall x, x ∈ xs <-> x ∈ ys) -> max_rank prec j xs = max_rank prec j ys.
Proof.
  assert (Hle : forall xs ys, (forall x, x ∈ xs -> x ∈ ys) ->
                  max_rank prec j xs <= max_rank prec j ys).
  { clear. intros xs ys Hsub.
    destruct (max_rank_attained prec j xs) as [->|(x & Hx & Hj & <-)].
    - apply max_rank_nonneg.
    - apply max_rank_upper; [by apply Hsub|done]. }
  intros Hsame. apply Z.le_antisymm; apply Hle; intros x; apply Hsame.
Qed.

Lemma sketch_lookup prec xs j :
  (j < Z.to_nat (2 ^ prec))%nat ->
  sketch prec xs !! j = Some (max_rank prec j xs).
Proof.
  intros Hj. induction xs as [|x xs IH]; cbn [sketch foldr max_rank].
  - by apply lookup_replicate_2.
  - fold (sketch prec xs). rewrite lookup_zip_with, IH.
    unfold single. rewrite list_lookup_insert, length_replicate.
    pose proof (max_rank_nonneg prec j xs) as Hnn.
    destruct (Nat.eqb_spec (index_of prec x) j) as [Heq|Hne].
    + rewrite decide_True by (split; [done|lia]). done.
    + rewrite decide_False by (intros [? _]; done).
      rewrite lookup_replicate_2 by done. cbn. by rewrite Z.max_r by lia.
Qed.

Lemma sketch_same_hashes prec xs ys :
  (forall x, x ∈ xs <-> x ∈ ys) -> sketch prec xs = sketch prec ys.
Proof.
  intros Hsame. apply list_eq. intros j.
  destruct (decide (j < Z.to_nat (2 ^ prec))%nat) as [Hj|Hj].
  - rewrite !sketch_lookup by done. f_equal. by apply max_rank_same_hashes.
  - rewrite !(proj2 (lookup_ge_None _ _)); [done|rewrite length_sketch; lia..].
Qed.

Lemma New_consistent precision h : New precision = inr h -> consistent h.
Proof.
  intros H. split; [by eapply New_wf|]. split; [|by eapply New_zeros_counted_mod].
  pose proof (New_representable _ _ H) as [Hreg _ _ _ _ _].
  eapply Forall_impl; [exact Hreg|]. cbn. lia.
Qed.

Section StreamTheorems.

Variable Log : float -> float.
Variable oor : float -> Z.

Lemma Add_all_lookup xs h h' j r :
  consistent h -> Forall (fun x => 0 <= x < 2 ^ 32) xs ->
  Add_all Log oor xs h = Some h' -> reg h !! j = Some r ->
  reg h' !! j = Some (Z.max r (max_rank (p h) j xs)).
Proof.
  intros Hh Hxs Hall Hr.
  destruct (Add_all_registers Log oor xs h Hh Hxs) as (h2 & Hall2 & _ & _ & _ & Hreg & _).
  rewrite Hall in Hall2. inversion Hall2; subst h2.
  destruct Hh as ([Hp Hm Hl] & _ & _).
  pose proof (lookup_lt_Some _ _ _ Hr) as Hlt.
  rewrite Hreg, lookup_zip_with, Hr, sketch_lookup; [done|].
  rewrite <- Hm, <- Hl. lia.
Qed.

(** After a stream of [Add]s every register holds the largest of its
    earlier value and the ranks of the hashes of the stream that select
    it, whatever their order and multiplicity. *)
Theorem Add_all_max_rank (xs : list Z) (h : HyperLogLog) :
  consistent h -> Forall (fun x => 0 <= x < 2 ^ 32) xs ->
  exists h', Add_all Log oor xs h = Some h' /\
    p h' = p h /\ m h' = m h /\ length (reg h') = length (reg h) /\
    forall j r, reg h !! j = Some r ->
                reg h' !! j = Some (Z.max r (max_rank (p h) j xs)).
Proof.
  intros Hh Hxs.
  destruct (Add_all_registers Log oor xs h Hh Hxs) as (h' & Hall & Hh' & Hp & Hm & Hreg & _).
  exists h'. split; [done|]. split; [done|]. split; [done|]. split.
  - destruct Hh as ([_ _ Hl] & _), Hh' as ([_ _ Hl'] & _). congruence.
  - intros j r Hr. by eapply Add_all_lookup.
Qed.

Lemma final_state_eq h h1 h2 :
  (h1 = h \/ (coherent Log oor h1 /\ reg_sum (reg h) < reg_sum (reg h1))) ->
  (h2 = h \/ (coherent Log oor h2 /\ reg_sum (reg h) < reg_sum (reg h2))) ->
  reg h1 = reg h2 -> m h1 = m h2 -> p h1 = p h2 -> h1 = h2.
Proof.
  intros [->|[Hc1 Hs1]] [->|[Hc2 Hs2]] Hr Hm Hp; [done| | |].
  - rewrite Hr in Hs2. lia.
  - rewrite Hr in Hs1. lia.
  - by apply (coherent_ext Log oor).
Qed.

(** Two streams with the same hashes, in any order and with any
    repetitions, leave an estimator in the same state. *)
Theorem Add_all_same_hashes (xs ys : list Z) (h : HyperLogLog) :
  consistent h ->
  Forall (fun x => 0 <= x < 2 ^ 32) xs -> Forall (fun x => 0 <= x < 2 ^ 32) ys ->
  (forall x, x ∈ xs <-> x ∈ ys) ->
  exists h', Add_all Log oor xs h = Some h' /\ Add_all Log oor ys h = Some h'.
Proof.
  intros Hh Hxs Hys Hsame.
  destruct (Add_all_registers Log oor xs h Hh Hxs) as (h1 & H1 & _ & Hp1 & Hm1 & Hr1 & Hc1).
  destruct (Add_all_registers Log oor ys h Hh Hys) as (h2 & H2 & _ & Hp2 & Hm2 & Hr2 & Hc2).
  exists h1. split; [done|]. rewrite H2. f_equal. symmetry.
  apply (final_state_eq h); [done|done| |congruence|congruence].
  by rewrite Hr1, Hr2, (sketch_same_hashes _ xs ys).
Qed.

(** Merging two estimators that were fed two streams from fresh gives the
    registers and the zero count of one estimator fed both streams, and,
    unless both streams are empty, the same estimator and [Count()]. *)
Theorem Merge_is_union (precision : Z) (F : HyperLogLog) (xs ys : list Z) :
  New precision = inr F ->
  Forall (fun x => 0 <= x < 2 ^ 32) xs -> Forall (fun x => 0 <= x < 2 ^ 32) ys ->
  exists A B AB U,
    Add_all Log oor xs F = Some A /\ Add_all Log oor ys F = Some B /\
    Merge Log oor A B = Some (AB, None) /\
    Add_all Log oor (xs ++ ys) F = Some U /\
    reg AB = reg U /\ z AB = z U /\
    (xs ++ ys <> [] -> AB = U /\ Count AB = Count U).
Proof.
  intros HF Hxs Hys. pose proof (New_consistent _ _ HF) as HcF.
  destruct (Add_all_registers Log oor xs F HcF Hxs) as (A & HA & HcA & HpA & HmA & HrA & _).
  destruct (Add_all_registers Log oor ys F HcF Hys) as (B & HB & HcB & HpB & HmB & HrB & _).
  destruct (Add_all_registers Log oor ys A HcA Hys) as (U & HU & HcU & HpU & HmU & HrU & _).
  assert (Hxy : Forall (fun x => 0 <= x < 2 ^ 32) (xs ++ ys)) by (by apply Forall_app).
  destruct (Add_all_registers Log oor (xs ++ ys) F HcF Hxy)
    as (U' & HU' & _ & _ & _ & _ & HcasesU).
  assert (U' = U) as ->.
  { rewrite Add_all_app, HA, HU in HU'. by inversion HU'. }
  assert (HwfF : wf F) by (by destruct HcF).
  assert (Hprec : 4 <= p F <= 16) by (by destruct HwfF).
  assert (HregF : reg F = replicate (Z.to_nat (2 ^ p F)) 0).
  { assert (Hpr : 4 <= precision <= 16).
    { unfold New in HF. destruct (precision >? 16) eqn:E1; [done|].
      destruct (precision <? 4) eqn:E2; [done|]. lia. }
    rewrite New_ok in HF by done. by inversion HF. }
  exists A, B, (merge_spec Log oor A B), U.
  split; [done|]. split; [done|].
  split. { apply Merge_ok; [by destruct HcA|by destruct HcB|congruence]. }
  split; [done|].
  assert (HrB' : reg B = sketch (p F) ys).
  { rewrite HrB, HregF, zip_max_comm.
    apply zip_max_zeros; [by apply sketch_nonneg|]. by rewrite length_sketch. }
  assert (Hreg : reg (merge_spec Log oor A B) = reg U).
  { cbn [merge_spec set_c reg]. by rewrite HrB', HrU, HpA. }
  assert (Hcoh : coherent Log oor (merge_spec Log oor A B)).
  { split; [reflexivity|]. cbn [merge_spec set_c c]. by apply doCount_ext. }
  split; [done|]. split.
  { destruct Hcoh as [-> _]. destruct HcU as (_ & _ & ->). by rewrite Hreg. }
  intros Hne.
  assert (HUF : U <> F).
  { destruct (xs ++ ys) as [|x0 rest] eqn:Hlist; [done|]. intros ->.
    inversion Hxy as [|? ? Hx0 _]; subst.
    destruct (index_of_range (p F) x0 Hprec Hx0) as [Hi _].
    destruct (rank_of_log2 (p F) x0 Hprec Hx0) as [_ Hrk].
    assert (Hlk : reg F !! index_of (p F) x0 = Some 0).
    { rewrite HregF. by apply lookup_replicate_2. }
    pose proof (Add_all_lookup _ _ _ _ _ HcF Hxy HU' Hlk) as Hlk'.
    rewrite Hlk in Hlk'. inversion Hlk' as [Hmax].
    cbn [max_rank] in Hmax. rewrite Nat.eqb_refl in Hmax.
    pose proof (max_rank_nonneg (p F) (index_of (p F) x0) rest). lia. }
  destruct HcasesU as [->|[HcohU _]]; [done|].
  assert (AB_U : merge_spec Log oor A B = U).
  { apply (coherent_ext Log oor); [done|done|done|cbn; congruence|cbn; congruence]. }
  split; [done|]. by rewrite AB_U.
Qed.

End StreamTheorems.

(** ** What every reachable estimator satisfies *)

Lemma countZeros_full (s : list Z) :
  countZeros s = Z.of_nat (length s) -> Forall (fun v => v = 0) s.
Proof.
  induction s as [|v s IH]; intros H; [constructor|].
  cbn [countZeros length] in H. pose proof (countZeros_range s) as Hr.
  destruct (Z.eqb_spec v 0) as [->|Hne]; [|lia].
  constructor; [done|]. apply IH. lia.
Qed.

Section ReachableTheorems.

Variable Log : float -> float.
Variable oor : float -> Z.

Lemma reachable_consistent h : reachable Log oor h -> consistent h.
Proof.
  intros Hr. destruct (reachable_invariant Log oor h Hr) as (Hwf & [Hreg _ _ _ _ _] & Hz).
  split; [done|]. split; [|done].
  eapply Forall_impl; [exact Hreg|]. cbn. lia.
Qed.

(** Whatever is done to an estimator, its precision stays in [4,16], [m]
    stays [2^p], it keeps exactly [m] registers, and every field holds a
    value of its Go type. *)
Theorem reachable_data_model (h : HyperLogLog) :
  reachable Log oor h ->
  4 <= p h <= 16 /\ m h = 2 ^ p h /\ Z.of_nat (length (reg h)) = m h /\
  representable h.
Proof.
  intros Hr. destruct (reachable_invariant Log oor h Hr) as ([Hp Hm Hl] & Hrep & _).
  split; [done|]. split; [done|]. split; [|done].
  rewrite Hl, Z2Nat.id; [done|]. rewrite Hm. apply Z.pow_nonneg. lia.
Qed.

(** No register of a reachable estimator exceeds [32 - p + 1], the rank
    at which the guard bit stops the count. *)
Theorem reachable_ranks_capped (h : HyperLogLog) :
  reachable Log oor h -> ranks_capped h.
Proof.
  unfold ranks_capped.
  induction 1 as [precision h Hnew
                 |h x h' Hreach IH Hx Hadd
                 |h other h' e Hreach IH Hreach' IH' Hmerge
                 |h Hreach IH].
  - pose proof (New_wf _ _ Hnew) as [Hp _ _].
    destruct (New_inr precision h Hnew) as (_ & _ & _ & -> & _).
    apply Forall_replicate. lia.
  - destruct (reachable_invariant Log oor h Hreach) as ([Hp Hm Hl] & _ & _).
    destruct (rank_of_log2 (p h) x Hp Hx) as [_ Hrk].
    revert Hadd. rewrite Add_unfold.
    destruct (reg h !! index_of (p h) x) as [r|]; [|discriminate].
    destruct (_ >? r); intros [= <-]; [|done].
    destruct (r =? 0); cbn [set_c set_reg set_z reg p]; (apply Forall_insert; [done|lia]).
  - destruct (reachable_invariant Log oor h Hreach) as (Hwf & _ & _).
    destruct (reachable_invariant Log oor other Hreach') as (Hwf' & _ & _).
    destruct (Z.eq_dec (p h) (p other)) as [Heq|Hne].
    + rewrite Merge_ok in Hmerge by done. inversion Hmerge; subst h' e.
      cbn [merge_spec set_c reg p]. apply Forall_zip_max; [done|].
      by rewrite Heq.
    + unfold Merge in Hmerge. destruct (p h =? p other) eqn:E; [lia|].
      cbn [negb] in Hmerge. by inversion Hmerge; subst h' e.
  - destruct (reachable_invariant Log oor h Hreach) as ([Hp _ _] & _ & _).
    cbn [Clear set_c set_z set_reg reg p]. apply Forall_replicate. lia.
Qed.

(** The cached zero count of a reachable estimator is the number of its
    zero registers, with one exception: at precision 16 with every
    register zero it is 0. *)
Theorem reachable_zero_count (h : HyperLogLog) :
  reachable Log oor h ->
  zeros_counted h \/
  (p h = 16 /\ z h = 0 /\ countZeros (reg h) = 65536 /\
   Forall (fun v => v = 0) (reg h)).
Proof.
  intros Hr. destruct (reachable_invariant Log oor h Hr) as ([Hp Hm Hl] & _ & Hz).
  pose proof (countZeros_range (reg h)) as Hrange.
  assert (Hlen : Z.of_nat (length (reg h)) = 2 ^ p h).
  { rewrite Hl, Hm, Z2Nat.id; [done|]. apply Z.pow_nonneg. lia. }
  assert (Hpow : 2 ^ p h <= 2 ^ 16) by (apply Z.pow_le_mono_r; lia).
  destruct (Z.eq_dec (countZeros (reg h)) 65536) as [Hfull|Hnot].
  - right.
    assert (Hp16 : p h = 16).
    { destruct (Z.eq_dec (p h) 16) as [|Hne]; [done|].
      assert (2 ^ p h <= 2 ^ 15) by (apply Z.pow_le_mono_r; lia). lia. }
    split; [done|]. split; [by rewrite Hz, Hfull|]. split; [done|].
    apply countZeros_full. rewrite Hlen, Hp16. done.
  - left. unfold zeros_counted. rewrite Hz. apply wrap_small. lia.
Qed.

(** [Count()] of a reachable estimator is the estimate of its current
    registers, unless nothing was added since [New] or [Clear], when it
    is 0. *)
Theorem reachable_count_current (h : HyperLogLog) :
  reachable Log oor h ->
  Count h = doCount Log oor h \/
  (Count h = 0 /\ Forall (fun v => v = 0) (reg h)).
Proof.
  unfold Count.
  induction 1 as [precision h Hnew
                 |h x h' Hreach IH Hx Hadd
                 |h other h' e Hreach IH Hreach' IH' Hmerge
                 |h Hreach IH].
  - right. destruct (New_inr precision h Hnew) as (_ & _ & _ & -> & Hc & _).
    split; [done|]. by apply Forall_replicate.
  - destruct (Add_registers Log oor h x (reachable_consistent h Hreach) Hx)
      as (h2 & Hadd2 & _ & _ & _ & _ & Hcases).
    rewrite Hadd in Hadd2. inversion Hadd2; subst h2.
    destruct Hcases as [->|[[_ Hc] _]]; [done|by left].
  - destruct (reachable_invariant Log oor h Hreach) as (Hwf & _ & _).
    destruct (reachable_invariant Log oor other Hreach') as (Hwf' & _ & _).
    destruct (Z.eq_dec (p h) (p other)) as [Heq|Hne].
    + rewrite Merge_ok in Hmerge by done. inversion Hmerge; subst h' e.
      left. cbn [merge_spec set_c c]. by apply doCount_ext.
    + unfold Merge in Hmerge. destruct (p h =? p other) eqn:E; [lia|].
      cbn [negb] in Hmerge. by inversion Hmerge; subst h' e.
  - right. split; [done|]. cbn [Clear set_c set_z set_reg reg]. by apply Forall_replicate.
Qed.

End ReachableTheorems.

(** ** Merge on any two estimators *)

Lemma merge_loop_panics (other : list Z) : forall (r : list Z) (i : nat),
  (i <= length r)%nat -> (length r < i + length other)%nat ->
  merge_loop i other r = None.
Proof.
  induction other as [|v other IH]; intros r i Hi Hlen; [cbn in Hlen; lia|].
  cbn [merge_loop]. destruct (r !! i) as [ri|] eqn:Hri; [|done].
  apply lookup_lt_Some in Hri.
  apply IH; destruct (v >? ri); rewrite ?length_insert; cbn [length] in Hlen; lia.
Qed.

Section MergeTheorems.

Variable Log : float -> float.
Variable oor : float -> Z.

(** With equal precisions [Merge] panics exactly when [other] has more
    registers than the receiver.  Otherwise it succeeds: the receiver's
    first registers become the larger of the two, those beyond [other]'s
    stay, and both cached values are recomputed from the result. *)
Theorem Merge_outcome (h other : HyperLogLog) :
  p h = p other ->
  (Merge Log oor h other = None <-> (length (reg h) < length (reg other))%nat) /\
  ((length (reg other) <= length (reg h))%nat ->
   exists h', Merge Log oor h other = Some (h', None) /\
     reg h' = zip_with Z.max (take (length (reg other)) (reg h)) (reg other)
              ++ drop (length (reg other)) (reg h) /\
     m h' = m h /\ p h' = p h /\
     z h' = uint16 (countZeros (reg h')) /\
     Count h' = doCount Log oor h').
Proof.
  intros Hp. unfold Merge.
  rewrite (proj2 (Z.eqb_eq (p h) (p other)) Hp). cbn [negb].
  destruct (le_lt_dec (length (reg other)) (length (reg h))) as [Hle|Hlt].
  - rewrite merge_loop_max by (cbn; lia).
    change (take 0 (reg h)) with (@nil Z). change (drop 0 (reg h)) with (reg h).
    cbn [app Nat.add].
    split; [split; [discriminate|lia]|]. intros _.
    eexists. split; [reflexivity|]. cbn [set_c set_z set_reg reg m p c z Count].
    split; [done|]. split; [done|]. split; [done|]. split; [done|].
    by apply doCount_ext.
  - rewrite merge_loop_panics by (cbn; lia).
    split; [done|lia].
Qed.

(** Merging an estimator into itself leaves its registers as they are and
    recomputes both cached values; an estimator whose cached values are
    current is left unchanged.  (The loop never writes here, so it makes no
    difference that receiver and argument are one object.) *)
Theorem Merge_self (h : HyperLogLog) :
  exists h', Merge Log oor h h = Some (h', None) /\
    reg h' = reg h /\ m h' = m h /\ p h' = p h /\
    coherent Log oor h' /\
    (coherent Log oor h -> h' = h).
Proof.
  unfold Merge. rewrite Z.eqb_refl. cbn [negb].
  rewrite merge_loop_same_length by done. rewrite zip_max_idemp.
  eexists. split; [reflexivity|]. cbn [set_c set_z set_reg reg m p c z].
  assert (Hcoh : coherent Log oor
            (set_c (set_z (set_reg h (reg h)) (uint16 (countZeros (reg (set_reg h (reg h))))))
               (doCount Log oor
                  (set_z (set_reg h (reg h)) (uint16 (countZeros (reg (set_reg h (reg h))))))))).
  { split; [reflexivity|]. cbn [set_c c]. by apply doCount_ext. }
  repeat split; try apply Hcoh.
  intros Hh. by apply (coherent_ext Log oor).
Qed.

(** Merging an estimator a second time, or merging the receiver's own
    earlier state, changes nothing. *)
Theorem Merge_idempotent (A B : HyperLogLog) :
  wf A -> wf B -> p A = p B ->
  exists AB,
    Merge Log oor A B = Some (AB, None) /\
    Merge Log oor AB B = Some (AB, None) /\
    Merge Log oor AB A = Some (AB, None).
Proof.
  intros HA HB Hp.
  pose proof (merge_spec_wf Log oor A B HA HB Hp) as HAB.
  exists (merge_spec Log oor A B).
  split; [by apply Merge_ok|].
  assert (Hcoh : forall X Y, coherent Log oor (merge_spec Log oor X Y)).
  { intros X Y. split; [reflexivity|]. cbn [merge_spec set_c c]. by apply doCount_ext. }
  split.
  - rewrite Merge_ok by (done || (cbn; congruence)). f_equal. f_equal.
    apply (coherent_ext Log oor); [apply Hcoh|apply Hcoh| |done|done].
    cbn [merge_spec set_c reg]. by rewrite zip_max_assoc, zip_max_idemp.
  - rewrite Merge_ok by (done || (cbn; congruence)). f_equal. f_equal.
    apply (coherent_ext Log oor); [apply Hcoh|apply Hcoh| |done|done].
    cbn [merge_spec set_c reg].
    rewrite (zip_max_comm (reg A) (reg B)).
    by rewrite zip_max_assoc, zip_max_idemp.
Qed.

End MergeTheorems.

(** ** Snapshots beyond the round trip *)

(** [GobDecode] reads five messages and no further: bytes that follow the
    encoding of a state are ignored. *)
Theorem GobDecode_ignores_trailing (E h0 : HyperLogLog) (extra : list byte) :
  representable E ->
  exists b, GobEncode E = inr b /\ GobDecode h0 (b ++ extra) = (E, None).
Proof.
  intros [Hreg Hlen Hm Hp Hc Hz].
  eexists. split; [apply GobEncode_messages|].
  unfold GobDecode. rewrite <- !app_assoc.
  rewrite Decode_bytes_message by done.
  rewrite Decode_uint_message by (done || lia).
  rewrite Decode_uint_message by (done || lia).
  rewrite Decode_uint_message by (done || lia).
  rewrite Decode_uint_message by (done || lia).
  by destruct E.
Qed.

(** Two states with the same encoding are the same state. *)
Theorem GobEncode_injective (E1 E2 : HyperLogLog) :
  representable E1 -> representable E2 ->
  GobEncode E1 = GobEncode E2 -> E1 = E2.
Proof.
  intros H1 H2 Heq.
  destruct (snapshot_roundtrip E1 H1) as (b1 & Hb1 & Hd1).
  destruct (snapshot_roundtrip E2 H2) as (b2 & Hb2 & Hd2).
  rewrite Heq, Hb2 in Hb1. inversion Hb1; subst b2.
  specialize (Hd1 E1). specialize (Hd2 E1). congruence.
Qed.

Section MergeFresh.

Variable Log : float -> float.
Variable oor : float -> Z.

(** A fresh estimator is neutral for [Merge]: merged into an estimator,
    or an estimator merged into it, the registers are those of the
    estimator, and an estimator whose cached values are current is left
    unchanged. *)
Theorem Merge_fresh_neutral (A F : HyperLogLog) :
  consistent A -> New (p A) = inr F ->
  exists A1 A2,
    Merge Log oor A F = Some (A1, None) /\ reg A1 = reg A /\
    Merge Log oor F A = Some (A2, None) /\ reg A2 = reg A /\
    A1 = A2 /\ (coherent Log oor A -> A1 = A).
Proof.
  intros (HwfA & Hnn & Hz) HF.
  pose proof (New_wf _ _ HF) as HwfF.
  destruct (New_inr _ _ HF) as (_ & HpF & HmF & HrF & _).
  destruct HwfA as [Hp Hm Hl].
  assert (HAF : zip_with Z.max (reg A) (reg F) = reg A).
  { rewrite HrF. apply zip_max_zeros; [done|]. rewrite Hl, Hm. lia. }
  assert (Hcoh : forall X Y, coherent Log oor (merge_spec Log oor X Y)).
  { intros X Y. split; [reflexivity|]. cbn [merge_spec set_c c]. by apply doCount_ext. }
  exists (merge_spec Log oor A F), (merge_spec Log oor F A).
  split; [apply Merge_ok; [by constructor|done|congruence]|].
  split; [done|].
  split; [apply Merge_ok; [done|by constructor|congruence]|].
  split; [cbn [merge_spec set_c reg]; by rewrite zip_max_comm|].
  split.
  - apply (coherent_ext Log oor); [apply Hcoh|apply Hcoh| | |].
    + cbn [merge_spec set_c reg]. by rewrite zip_max_comm.
    + cbn [merge_spec set_c m]. congruence.
    + cbn [merge_spec set_c p]. congruence.
  - intros HcA. by apply (coherent_ext Log oor).
Qed.

End MergeFresh.

(** ** The further properties at sample inputs *)

Lemma fresh4_new : New 4 = inr fresh4.
Proof. reflexivity. Defined.

Lemma fresh4_consistent : consistent fresh4.
Proof.
  split; [exact fresh4_wf|]. split; [|reflexivity].
  cbn. repeat constructor; lia.
Defined.

Lemma added4_consistent : consistent added4.
Proof.
  split; [exact added4_wf|]. split; [|reflexivity].
  cbn. repeat constructor; lia.
Defined.

Lemma added4_reachable : reachable Run.Log Run.oor added4.
Proof.
  apply (reach_Add Run.Log Run.oor fresh4 (2 ^ 31) added4).
  - exact (reach_New Run.Log Run.oor 4 fresh4 fresh4_new).
  - lia.
  - vm_compute. reflexivity.
Defined.

Lemma Clear_is_New_witness :
  wf added4 /\ New (p added4) = inr (Clear added4).
Proof. split; [exact added4_wf|]. apply (Clear_is_New added4 added4_wf). Defined.

Lemma rank_of_remaining_bits_witness :
  4 <= 4 <= 16 /\ 0 <= 2 ^ 31 + 5 < 2 ^ 32 /\
  let rest := (2 ^ 31 + 5) mod 2 ^ (32 - 4) in
  rank_of 4 (2 ^ 31 + 5) =
    if rest =? 0 then 32 - 4 + 1 else (32 - 4 - 1 - Z.log2 rest) + 1.
Proof.
  split; [lia|]. split; [lia|].
  apply (rank_of_remaining_bits 4 (2 ^ 31 + 5)); lia.
Defined.

Lemma Add_one_register_witness :
  Add Run.Log Run.oor fresh4 (2 ^ 31) = Some added4 /\
  p added4 = p fresh4 /\ m added4 = m fresh4 /\
  length (reg added4) = length (reg fresh4) /\
  (exists r, reg fresh4 !! index_of (p fresh4) (2 ^ 31) = Some r /\
             reg added4 !! index_of (p fresh4) (2 ^ 31)
             = Some (Z.max r (rank_of (p fresh4) (2 ^ 31)))) /\
  (forall j, j <> index_of (p fresh4) (2 ^ 31) -> reg added4 !! j = reg fresh4 !! j).
Proof.
  assert (H : Add Run.Log Run.oor fresh4 (2 ^ 31) = Some added4) by (vm_compute; reflexivity).
  split; [exact H|].
  apply (Add_one_register Run.Log Run.oor fresh4 (2 ^ 31) added4 H).
Defined.

Lemma sample_stream_range : Forall (fun x => 0 <= x < 2 ^ 32) [2 ^ 31; 5].
Proof. repeat constructor; lia. Defined.

Lemma sample_stream_range' : Forall (fun x => 0 <= x < 2 ^ 32) [5; 2 ^ 31; 5].
Proof. repeat constructor; lia. Defined.

Lemma Add_all_max_rank_witness :
  consistent fresh4 /\ Forall (fun x => 0 <= x < 2 ^ 32) [2 ^ 31; 5] /\
  exists h', Add_all Run.Log Run.oor [2 ^ 31; 5] fresh4 = Some h' /\
    p h' = p fresh4 /\ m h' = m fresh4 /\ length (reg h') = length (reg fresh4) /\
    forall j r, reg fresh4 !! j = Some r ->
                reg h' !! j = Some (Z.max r (max_rank (p fresh4) j [2 ^ 31; 5])).
Proof.
  split; [exact fresh4_consistent|]. split; [exact sample_stream_range|].
  apply (Add_all_max_rank Run.Log Run.oor [2 ^ 31; 5] fresh4
           fresh4_consistent sample_stream_range).
Defined.

Lemma Add_all_same_hashes_witness :
  consistent fresh4 /\
  Forall (fun x => 0 <= x < 2 ^ 32) [2 ^ 31; 5] /\
  Forall (fun x => 0 <= x < 2 ^ 32) [5; 2 ^ 31; 5] /\
  (forall x, x ∈ [2 ^ 31; 5] <-> x ∈ [5; 2 ^ 31; 5]) /\
  exists h', Add_all Run.Log Run.oor [2 ^ 31; 5] fresh4 = Some h' /\
             Add_all Run.Log Run.oor [5; 2 ^ 31; 5] fresh4 = Some h'.
Proof.
  assert (Hsame : forall x : Z, x ∈ [2 ^ 31; 5] <-> x ∈ [5; 2 ^ 31; 5]).
  { intros x. rewrite !elem_of_cons. rewrite !elem_of_nil. tauto. }
  split; [exact fresh4_consistent|]. split; [exact sample_stream_range|].
  split; [exact sample_stream_range'|]. split; [exact Hsame|].
  apply (Add_all_same_hashes Run.Log Run.oor [2 ^ 31; 5] [5; 2 ^ 31; 5] fresh4
           fresh4_consistent sample_stream_range sample_stream_range' Hsame).
Defined.

Lemma Merge_is_union_witness :
  New 4 = inr fresh4 /\
  Forall (fun x => 0 <= x < 2 ^ 32) [2 ^ 31; 5] /\
  Forall (fun x => 0 <= x < 2 ^ 32) [5; 2 ^ 31; 5] /\
  exists A B AB U,
    Add_all Run.Log Run.oor [2 ^ 31; 5] fresh4 = Some A /\
    Add_all Run.Log Run.oor [5; 2 ^ 31; 5] fresh4 = Some B /\
    Merge Run.Log Run.oor A B = Some (AB, None) /\
    Add_all Run.Log Run.oor ([2 ^ 31; 5] ++ [5; 2 ^ 31; 5]) fresh4 = Some U /\
    reg AB = reg U /\ z AB = z U /\
    ([2 ^ 31; 5] ++ [5; 2 ^ 31; 5] <> [] -> AB = U /\ Count AB = Count U).
Proof.
  split; [exact fresh4_new|]. split; [exact sample_stream_range|].
  split; [exact sample_stream_range'|].
  apply (Merge_is_union Run.Log Run.oor 4 fresh4 [2 ^ 31; 5] [5; 2 ^ 31; 5]
           fresh4_new sample_stream_range sample_stream_range').
Defined.

Lemma reachable_data_model_witness :
  reachable Run.Log Run.oor added4 /\
  4 <= p added4 <= 16 /\ m added4 = 2 ^ p added4 /\
  Z.of_nat (length (reg added4)) = m added4 /\ representable added4.
Proof.
  split; [exact added4_reachable|].
  apply (reachable_data_model Run.Log Run.oor added4 added4_reachable).
Defined.

Lemma reachable_ranks_capped_witness :
  reachable Run.Log Run.oor added4 /\ ranks_capped added4.
Proof.
  split; [exact added4_reachable|].
  apply (reachable_ranks_capped Run.Log Run.oor added4 added4_reachable).
Defined.

Lemma reachable_zero_count_witness :
  reachable Run.Log Run.oor added4 /\
  (zeros_counted added4 \/
   (p added4 = 16 /\ z added4 = 0 /\ countZeros (reg added4) = 65536 /\
    Forall (fun v => v = 0) (reg added4))).
Proof.
  split; [exact added4_reachable|].
  apply (reachable_zero_count Run.Log Run.oor added4 added4_reachable).
Defined.

Lemma reachable_count_current_witness :
  reachable Run.Log Run.oor added4 /\
  (Count added4 = doCount Run.Log Run.oor added4 \/
   (Count added4 = 0 /\ Forall (fun v => v = 0) (reg added4))).
Proof.
  split; [exact added4_reachable|].
  apply (reachable_count_current Run.Log Run.oor added4 added4_reachable).
Defined.

Lemma Merge_outcome_witness :
  p fresh4 = p added4 /\
  (Merge Run.Log Run.oor fresh4 added4 = None
   <-> (length (reg fresh4) < length (reg added4))%nat) /\
  ((length (reg added4) <= length (reg fresh4))%nat ->
   exists h', Merge Run.Log Run.oor fresh4 added4 = Some (h', None) /\
     reg h' = zip_with Z.max (take (length (reg added4)) (reg fresh4)) (reg added4)
              ++ drop (length (reg added4)) (reg fresh4) /\
     m h' = m fresh4 /\ p h' = p fresh4 /\
     z h' = uint16 (countZeros (reg h')) /\
     Count h' = doCount Run.Log Run.oor h').
Proof.
  split; [reflexivity|].
  apply (Merge_outcome Run.Log Run.oor fresh4 added4). reflexivity.
Defined.

Lemma Merge_idempotent_witness :
  wf fresh4 /\ wf added4 /\ p fresh4 = p added4 /\
  exists AB,
    Merge Run.Log Run.oor fresh4 added4 = Some (AB, None) /\
    Merge Run.Log Run.oor AB added4 = Some (AB, None) /\
    Merge Run.Log Run.oor AB fresh4 = Some (AB, None).
Proof.
  split; [exact fresh4_wf|]. split; [exact added4_wf|]. split; [reflexivity|].
  apply (Merge_idempotent Run.Log Run.oor fresh4 added4 fresh4_wf added4_wf).
  reflexivity.
Defined.

Lemma Merge_fresh_neutral_witness :
  consistent added4 /\ New (p added4) = inr fresh4 /\
  exists A1 A2,
    Merge Run.Log Run.oor added4 fresh4 = Some (A1, None) /\ reg A1 = reg added4 /\
    Merge Run.Log Run.oor fresh4 added4 = Some (A2, None) /\ reg A2 = reg added4 /\
    A1 = A2 /\ (coherent Run.Log Run.oor added4 -> A1 = added4).
Proof.
  split; [exact added4_consistent|]. split; [exact fresh4_new|].
  apply (Merge_fresh_neutral Run.Log Run.oor added4 fresh4 added4_consistent fresh4_new).
Defined.

Lemma GobDecode_ignores_trailing_witness :
  representable added4 /\
  exists b, GobEncode added4 = inr b /\
            GobDecode fresh5 (b ++ [x00; xff]) = (added4, None).
Proof.
  split; [exact added4_representable|].
  apply (GobDecode_ignores_trailing added4 fresh5 [x00; xff] added4_representable).
Defined.

Lemma GobEncode_injective_witness :
  representable added4 /\ representable added4 /\
  GobEncode added4 = GobEncode added4 /\ added4 = added4.
Proof.
  split; [exact added4_representable|]. split; [exact added4_representable|].
  split; [reflexivity|].
  apply (GobEncode_injective added4 added4 added4_representable added4_representable).
  reflexivity.
Defined.
